(** * pytorchst: the perceptual-loss pipeline of [models/plst.py]

    A shallow embedding of [src/models/plst.py] and the properties its
    specification states about it.

    - Tensor values.  A tensor is a shape together with a function from
      multi-indices to scalars.  Scalars are exact rationals extended with
      one value, [None], that stands for "not a finite number" (what torch
      prints as [nan] or [inf]): it is produced by a division by zero and is
      absorbed by every arithmetic operation.  Rounding and overflow of the
      machine floats are outside the model.
    - Exceptions.  An operation that raises in Python returns [Raise].
    - Networks.  The weights of [StyleTransferNet] are random and those of
      [Vgg16] are downloaded, so both networks are embedded at the level of
      the shapes their layers produce; the loss session takes its extractor
      as an argument, exactly as [Loss_plst.__init__] does. *)

From Stdlib Require Import List Arith PeanoNat Bool ZArith QArith Qabs.
From Stdlib Require Import Lia Lqa ZifyNat.
Import ListNotations.

Local Open Scope nat_scope.

(* ================================================================== *)
(** * Exceptions *)

Inductive result (A : Type) : Type :=
| Ok (a : A)
| Raise.
Arguments Ok {A} a.
Arguments Raise {A}.

Definition rbind {A B} (r : result A) (k : A -> result B) : result B :=
  match r with Ok a => k a | Raise => Raise end.

Notation "'let/r' x ':=' r 'in' k" := (rbind r (fun x => k))
  (at level 10, x pattern, r at level 100, k at level 200).

(* ================================================================== *)
(** * Scalars *)

Module Scalar.

(** A Python/torch scalar: a rational, or [None] when it is not a finite
    number. *)
Definition scalar := option Q.

Definition lift2 (op : Q -> Q -> Q) (a b : scalar) : scalar :=
  match a, b with
  | Some x, Some y => Some (op x y)
  | _, _ => None
  end.

Definition sadd : scalar -> scalar -> scalar := lift2 Qplus.
Definition ssub : scalar -> scalar -> scalar := lift2 Qminus.
Definition smul : scalar -> scalar -> scalar := lift2 Qmult.
Definition sabs (a : scalar) : scalar := option_map Qabs a.

(** Division by an element count.  Dividing by zero never gives a finite
    number. *)
Definition sdivn (a : scalar) (n : nat) : scalar :=
  match a with
  | Some x => if n =? 0 then None else Some (x / inject_Z (Z.of_nat n))%Q
  | None => None
  end.

(** Equality of scalars as numbers. *)
Definition seqv (a b : scalar) : Prop :=
  match a, b with
  | Some x, Some y => (x == y)%Q
  | None, None => True
  | _, _ => False
  end.

(** [0 <= a], false of a non-finite [a]. *)
Definition snonneg (a : scalar) : Prop :=
  match a with Some x => (0 <= x)%Q | None => False end.

(** Sum of [f 0 .. f (n-1)]. *)
Fixpoint ssum (n : nat) (f : nat -> scalar) : scalar :=
  match n with
  | O => Some 0%Q
  | S k => sadd (ssum k f) (f k)
  end.

(** The same sum on rationals. *)
Fixpoint qsum (n : nat) (f : nat -> Q) : Q :=
  match n with
  | O => 0%Q
  | S k => (qsum k f + f k)%Q
  end.

End Scalar.
Export Scalar.

(* ================================================================== *)
(** * Tensors *)

Module Torch.

Record tensor : Type := mkTensor {
  shape : list nat;             (* [t.size()] *)
  get : list nat -> scalar      (* [t[i0, i1, ...]] *)
}.

(** [t.numel()] *)
Fixpoint numel (s : list nat) : nat :=
  match s with
  | [] => 1
  | d :: ds => d * numel ds
  end.

(** A multi-index that addresses an element of a tensor of shape [s]. *)
Fixpoint in_bounds (s idx : list nat) : Prop :=
  match s, idx with
  | [], [] => True
  | d :: s', i :: idx' => i < d /\ in_bounds s' idx'
  | _, _ => False
  end.

(** Every element is a finite number. *)
Definition finite (t : tensor) : Prop :=
  forall idx, in_bounds (shape t) idx -> get t idx <> None.

(** The rational stored at [idx] (0 where the element is not finite). *)
Definition val (t : tensor) (idx : list nat) : Q :=
  match get t idx with Some q => q | None => 0%Q end.

(** Sum over all multi-indices of a shape, first index outermost. *)
Fixpoint sum_over (s : list nat) (f : list nat -> scalar) : scalar :=
  match s with
  | [] => f []
  | d :: ds => ssum d (fun i => sum_over ds (fun idx => f (i :: idx)))
  end.

Fixpoint qsum_over (s : list nat) (f : list nat -> Q) : Q :=
  match s with
  | [] => f []
  | d :: ds => qsum d (fun i => qsum_over ds (fun idx => f (i :: idx)))
  end.

(** [torch.mean(t)]: the sum of all elements divided by their number; on
    an empty tensor this is 0/0. *)
Definition mean (t : tensor) : scalar :=
  sdivn (sum_over (shape t) (get t)) (numel (shape t)).

(** ** Broadcasting *)

Definition bdim (a b : nat) : option nat :=
  if a =? b then Some a
  else if a =? 1 then Some b
  else if b =? 1 then Some a
  else None.

(** Shapes are aligned at their last dimension: the lists are reversed. *)
Fixpoint bshape_rev (r1 r2 : list nat) : option (list nat) :=
  match r1, r2 with
  | [], r => Some r
  | r, [] => Some r
  | a :: r1', b :: r2' =>
      match bdim a b, bshape_rev r1' r2' with
      | Some d, Some r => Some (d :: r)
      | _, _ => None
      end
  end.

(** [torch.broadcast_shapes(s1, s2)]; [None] when torch raises. *)
Definition broadcast_shapes (s1 s2 : list nat) : option (list nat) :=
  option_map (@rev nat) (bshape_rev (rev s1) (rev s2)).

(** The index of [t] that a broadcast index reads: leading dimensions
    that [t] lacks are dropped, a dimension of size 1 is read at 0. *)
Definition bindex (s idx : list nat) : list nat :=
  map (fun di => if fst di =? 1 then 0 else snd di)
      (combine s (skipn (length idx - length s) idx)).

(** [t.expand(s)] *)
Definition expand (t : tensor) (s : list nat) : tensor :=
  mkTensor s (fun idx => get t (bindex (shape t) idx)).

(** Element-wise binary operation with broadcasting. *)
Definition map2 (op : scalar -> scalar -> scalar) (a b : tensor)
  : result tensor :=
  match broadcast_shapes (shape a) (shape b) with
  | None => Raise
  | Some s =>
      Ok (mkTensor s (fun idx =>
            op (get (expand a s) idx) (get (expand b s) idx)))
  end.

Definition tsub : tensor -> tensor -> result tensor := map2 ssub.
Definition tadd : tensor -> tensor -> result tensor := map2 sadd.

(** [torch.abs(t)] *)
Definition tabs (t : tensor) : tensor :=
  mkTensor (shape t) (fun idx => sabs (get t idx)).

(** [t.div(n)] *)
Definition tdivn (t : tensor) (n : nat) : tensor :=
  mkTensor (shape t) (fun idx => sdivn (get t idx) n).

(** [nn.MSELoss(reduction='mean')(input, target)]: both arguments are
    broadcast to a common shape, then the squared differences are
    averaged. *)
Definition mse_loss (input target : tensor) : result scalar :=
  match broadcast_shapes (shape input) (shape target) with
  | None => Raise
  | Some s =>
      Ok (mean (mkTensor s (fun idx =>
            let d := ssub (get (expand input s) idx)
                          (get (expand target s) idx) in
            smul d d)))
  end.

(** ** Indexing with slices *)

(** A Python slice [start:stop]; a missing bound is [None]. *)
Definition slice : Type := option Z * option Z.
Definition full : slice := (None, None).        (* [:]   *)
Definition upto (stop : Z) : slice := (None, Some stop).   (* [:stop]  *)
Definition from (start : Z) : slice := (Some start, None). (* [start:] *)

(** A slice bound on a dimension of size [n]: a negative bound counts
    from the end, and the result is clamped to [0, n]. *)
Definition clamp (n : nat) (i : Z) : nat :=
  let i' := if (i <? 0)%Z then (i + Z.of_nat n)%Z else i in
  Nat.min (Z.to_nat i') n.

(** First index and number of elements selected by a slice. *)
Definition slice_bounds (n : nat) (c : slice) : nat * nat :=
  let start := match fst c with Some i => clamp n i | None => 0 end in
  let stop := match snd c with Some i => clamp n i | None => n end in
  (start, stop - start).

Fixpoint slice_shape (sl : list slice) (s : list nat)
  : option (list nat) :=
  match sl, s with
  | [], _ => Some s
  | _ :: _, [] => None
  | c :: sl', d :: s' =>
      option_map (cons (snd (slice_bounds d c))) (slice_shape sl' s')
  end.

Fixpoint slice_index (sl : list slice) (s idx : list nat) : list nat :=
  match sl, s, idx with
  | c :: sl', d :: s', i :: idx' =>
      (fst (slice_bounds d c) + i) :: slice_index sl' s' idx'
  | _, _, _ => idx
  end.

(** [t[c0, c1, ...]]: too many indices raise [IndexError]. *)
Definition getitem (t : tensor) (sl : list slice) : result tensor :=
  match slice_shape sl (shape t) with
  | None => Raise
  | Some s =>
      Ok (mkTensor s (fun idx => get t (slice_index sl (shape t) idx)))
  end.

(** ** Views *)

(** Row-major offset of a multi-index, and its inverse. *)
Fixpoint ravel (s idx : list nat) : nat :=
  match s, idx with
  | _ :: s', i :: idx' => i * numel s' + ravel s' idx'
  | _, _ => 0
  end.

Fixpoint unravel (s : list nat) (n : nat) : list nat :=
  match s with
  | [] => []
  | _ :: s' => (n / numel s') :: unravel s' (n mod numel s')
  end.

(** [t.view(s)] of a contiguous tensor: the same elements in row-major
    order under another shape; the element counts must agree.  A tensor
    of this model has no strides: it stands for a contiguous tensor, as
    the feature maps of the pipeline are.  On a tensor whose layout is
    not contiguous (a transposed or sliced one) torch's [view] can raise
    where this definition returns; no statement below is about such a
    tensor. *)
Definition view (t : tensor) (s : list nat) : result tensor :=
  if numel (shape t) =? numel s
  then Ok (mkTensor s (fun idx =>
             get t (unravel (shape t) (ravel s idx))))
  else Raise.

Fixpoint on_nth {A} (d : nat) (f : A -> A) (l : list A) : list A :=
  match l, d with
  | [], _ => []
  | x :: l', O => f x :: l'
  | x :: l', S d' => x :: on_nth d' f l'
  end.

Definition swap {A} (i j : nat) (l : list A) : list A :=
  match nth_error l i, nth_error l j with
  | Some a, Some b => on_nth i (fun _ => b) (on_nth j (fun _ => a) l)
  | _, _ => l
  end.

(** [t.transpose(d0, d1)] *)
Definition transpose (t : tensor) (d0 d1 : nat) : result tensor :=
  if (d0 <? length (shape t)) && (d1 <? length (shape t))
  then Ok (mkTensor (swap d0 d1 (shape t))
             (fun idx => get t (swap d0 d1 idx)))
  else Raise.

(** [torch.bmm(a, b)]: batched product of [b x n x m] by [b x m x p]. *)
Definition bmm (a b : tensor) : result tensor :=
  match shape a, shape b with
  | [ba; n; m], [bb; m'; p] =>
      if (ba =? bb) && (m =? m')
      then Ok (mkTensor [ba; n; p] (fun idx =>
             match idx with
             | [i; r; c] =>
                 ssum m (fun k => smul (get a [i; r; k]) (get b [i; k; c]))
             | _ => None
             end))
      else Raise
  | _, _ => Raise
  end.

(** ** Literals *)

Definition nth_or {A} (l : list A) (i : nat) (k : A -> scalar) : scalar :=
  match nth_error l i with Some x => k x | None => None end.

(** The 4-dimensional tensor written as nested lists (rectangular; the
    shape is read off the first elements). *)
Definition tensor4 (l : list (list (list (list Q)))) : tensor :=
  let c := hd [] l in
  let h := hd [] c in
  let w := hd [] h in
  mkTensor [length l; length c; length h; length w]
    (fun idx =>
       match idx with
       | [i; j; p; q] =>
           nth_or l i (fun a => nth_or a j (fun b => nth_or b p
             (fun r => nth_or r q (fun x => Some x))))
       | _ => None
       end).

End Torch.
Export Torch.

(* ================================================================== *)
(** * The loss terms of [plst.py] *)

Module Plst.

(** [L_feat(feats, targets)], feature reconstruction loss. *)
Definition L_feat (feats targets : tensor) : result scalar :=
  mse_loss feats targets.

(** [gram_matrix(input)] *)
Definition gram_matrix (input : tensor) : result tensor :=
  match shape input with
  | [b; c; h; w] =>
      let/r features := view input [b; c; h * w] in
      let/r ft := transpose features 1 2 in
      let/r G := bmm features ft in
      Ok (tdivn G (h * w))
  | _ => Raise
  end.

(** The element [features[n, i, k]] of
    [features = input.view(b, c, h * w)] for [input] of shape
    [[b; c; h; w]]. *)
Definition features_at (input : tensor) (b c h w n i k : nat) : scalar :=
  get input (unravel [b; c; h; w] (ravel [b; c; h * w] [n; i; k])).

(** [L_style(feats, targets)], style reconstruction loss. *)
Definition L_style (feats targets : tensor) : result scalar :=
  let/r gf := gram_matrix feats in
  let/r gt := gram_matrix targets in
  mse_loss gf gt.

(** [L_pixel(feats, targets)] *)
Definition L_pixel (feats targets : tensor) : result scalar :=
  mse_loss feats targets.

(** [L_tv(preds)], total variation loss. *)
Definition L_tv (preds : tensor) : result scalar :=
  let/r a := getitem preds [full; full; full; upto (-1)] in
  let/r b := getitem preds [full; full; full; from 1] in
  let/r dw := tsub a b in
  let/r c := getitem preds [full; full; upto (-1); full] in
  let/r d := getitem preds [full; full; from 1; full] in
  let/r dh := tsub c d in
  Ok (sadd (mean (tabs dw)) (mean (tabs dh))).

End Plst.
Export Plst.

(* ================================================================== *)
(** * The loss session [Loss_plst] *)

Module Session.

(** State and exceptions: a computation reads and writes a state of type
    [S] and either returns or raises. *)
Definition M (S A : Type) : Type := S -> result A * S.

Definition ret {S A} (a : A) : M S A := fun s => (Ok a, s).

Definition bind {S A B} (m : M S A) (k : A -> M S B) : M S B :=
  fun s => match m s with
           | (Ok a, s') => k a s'
           | (Raise, s') => (Raise, s')
           end.

Definition liftR {S A} (r : result A) : M S A := fun s => (r, s).

Notation "x <- m ;; k" := (bind m (fun x => k))
  (at level 61, m at next level, right associativity).
Notation "' p <- m ;; k" := (bind m (fun x => match x with p => k end))
  (at level 61, p pattern, m at next level, right associativity).

(** The extractor handed to the session: any callable from an image
    batch to a sequence of feature maps. *)
Definition extractor : Type := tensor -> result (list tensor).

(** The attributes [__init__] sets. *)
Record Loss_plst : Type := mkLoss_plst {
  vgg : extractor;
  style_img : tensor;
  lambda_c : Q;
  lambda_s : Q;
  lambda_tv : Q;
  style_relu1_2 : tensor;
  style_relu2_2 : tensor;
  style_relu3_3 : tensor;
  style_relu4_3 : tensor
}.

(** [a, b, c, d = seq]: raises unless [seq] has exactly four items. *)
Definition unpack4 (l : list tensor)
  : result (tensor * tensor * tensor * tensor) :=
  match l with
  | [a; b; c; d] => Ok (a, b, c, d)
  | _ => Raise
  end.

(** [Loss_plst(vgg, style_img, lambda_c, lambda_s, lambda_tv)].  The
    state is the log of the images the extractor has been run on. *)
Definition init (vgg0 : extractor) (style_img0 : tensor)
    (lambda_c0 lambda_s0 lambda_tv0 : Q) : M (list tensor) Loss_plst :=
  feats <- (fun log => (vgg0 style_img0, log ++ [style_img0])) ;;
  '(s1, s2, s3, s4) <- liftR (unpack4 feats) ;;
  ret (mkLoss_plst vgg0 style_img0 lambda_c0 lambda_s0 lambda_tv0
         s1 s2 s3 s4).

(** The default weights of [__init__]. *)
Definition init_default (vgg0 : extractor) (style_img0 : tensor)
  : M (list tensor) Loss_plst :=
  init vgg0 style_img0 1%Q 1%Q 1%Q.

(** What a method call can touch: the session object and the log of
    extractor runs. *)
Record world : Type := mkWorld {
  self : Loss_plst;
  calls : list tensor
}.

(** [self.vgg(x)] *)
Definition call_vgg (x : tensor) : M world (list tensor) :=
  fun w => (vgg (self w) x, mkWorld (self w) (calls w ++ [x])).

(** Reading an attribute of [self]. *)
Definition attr {A} (f : Loss_plst -> A) : M world A :=
  fun w => (Ok (f (self w)), w).

(** [self.extract_and_calculate_loss(x, y_hat)] *)
Definition extract_and_calculate_loss (x y_hat : tensor)
  : M world (scalar * scalar * scalar) :=
  fx <- call_vgg x ;;
  '(_, _, content_target, _) <- liftR (unpack4 fx) ;;
  fy <- call_vgg y_hat ;;
  '(content_relu1_2, content_relu2_2, content_relu3_3, content_relu4_3)
     <- liftR (unpack4 fy) ;;
  loss_c <- liftR (L_feat content_relu3_3 content_target) ;;
  s1 <- attr style_relu1_2 ;;
  l1 <- liftR (L_style content_relu1_2 s1) ;;
  s2 <- attr style_relu2_2 ;;
  l2 <- liftR (L_style content_relu2_2 s2) ;;
  s3 <- attr style_relu3_3 ;;
  l3 <- liftR (L_style content_relu3_3 s3) ;;
  s4 <- attr style_relu4_3 ;;
  l4 <- liftR (L_style content_relu4_3 s4) ;;
  let loss_s := sadd (sadd (sadd l1 l2) l3) l4 in
  loss_tv <- liftR (L_tv y_hat) ;;
  wc <- attr lambda_c ;;
  ws <- attr lambda_s ;;
  wtv <- attr lambda_tv ;;
  ret (smul (Some wc) loss_c, smul (Some ws) loss_s,
       smul (Some wtv) loss_tv).

(** A caller of the session (the training loop, which is not part of
    [plst.py]): the method is called on each pair of the list in turn and
    the losses of all steps are collected.  It serves to state what any
    sequence of calls does to the session. *)
Fixpoint steps (batches : list (tensor * tensor))
  : M world (list (scalar * scalar * scalar)) :=
  match batches with
  | [] => ret []
  | (x, y_hat) :: rest =>
      l <- extract_and_calculate_loss x y_hat ;;
      ls <- steps rest ;;
      ret (l :: ls)
  end.

End Session.
Export Session.

(* ================================================================== *)
(** * The networks, at the level of shapes *)

Module NN.

(** A batch is represented by its shape [[N; C; H; W]]; a layer maps the
    shape of its input to the shape of its output, or raises. *)
Definition dims : Type := list nat.

Inductive pad_mode : Type := pad_zeros | pad_reflect.

(** [nn.Conv2d(in, out, kernel_size, stride, padding, padding_mode)] *)
Record Conv2d : Type := mkConv2d {
  in_channels : nat;
  out_channels : nat;
  kernel_size : nat;
  stride : nat;
  padding : nat;
  padding_mode : pad_mode
}.

(** Output length of a convolution or pooling window along one
    dimension: [floor((d + 2p - k) / s) + 1], undefined when the padded
    input is shorter than the kernel. *)
Definition window_out (d k s p : nat) : option nat :=
  if (d + 2 * p <? k) || (s =? 0) then None
  else Some ((d + 2 * p - k) / s + 1).

(** Reflection padding needs the pad to be smaller than the dimension
    it extends. *)
Definition pad_ok (m : pad_mode) (p d : nat) : bool :=
  match m with
  | pad_zeros => true
  | pad_reflect => p <? d
  end.

(** The forward pass on a batch [[N; C; H; W]].  Only batches are
    modelled: the unbatched 3-dimensional form that torch also takes is
    not, and the shapes and failures stated below are those of
    4-dimensional input. *)
Definition Conv2d_forward (l : Conv2d) (x : dims) : result dims :=
  match x with
  | [n; c; h; w] =>
      if negb (c =? in_channels l) then Raise
      else if negb (pad_ok (padding_mode l) (padding l) h
                    && pad_ok (padding_mode l) (padding l) w) then Raise
      else
        match window_out h (kernel_size l) (stride l) (padding l),
              window_out w (kernel_size l) (stride l) (padding l) with
        | Some h', Some w' => Ok [n; out_channels l; h'; w']
        | _, _ => Raise
        end
  | _ => Raise
  end.

(** [nn.InstanceNorm2d(num_features, affine)]: the shape is kept.  The
    statistics are those of the input (the module keeps no running
    statistics), so an input with exactly one spatial position raises;
    with [affine = True] the per-channel weight and bias must match the
    channel count, and an input without any (sample, channel) pair, an
    empty batch in particular, raises when the weight is indexed. *)
Record InstanceNorm2d : Type := mkInstanceNorm2d {
  num_features : nat;
  affine : bool
}.

Definition InstanceNorm2d_forward (l : InstanceNorm2d) (x : dims)
  : result dims :=
  match x with
  | [n; c; h; w] =>
      if h * w =? 1 then Raise
      else if affine l && ((n * c =? 0) || negb (c =? num_features l))
      then Raise
      else Ok x
  | _ => Raise
  end.

(** [nn.ReLU()] *)
Definition ReLU_forward (x : dims) : result dims := Ok x.

(** [nn.Upsample(scale_factor)] (nearest neighbour) *)
Definition Upsample_forward (scale_factor : nat) (x : dims)
  : result dims :=
  match x with
  | [n; c; h; w] => Ok [n; c; h * scale_factor; w * scale_factor]
  | _ => Raise
  end.

(** [nn.MaxPool2d(kernel_size, stride)], on a batch [[N; C; H; W]] as
    for [Conv2d_forward]. *)
Definition MaxPool2d_forward (k s : nat) (x : dims) : result dims :=
  match x with
  | [n; c; h; w] =>
      match window_out h k s 0, window_out w k s 0 with
      | Some h', Some w' => Ok [n; c; h'; w']
      | _, _ => Raise
      end
  | _ => Raise
  end.

(** [a + b] on tensors: the broadcast shape. *)
Definition add_forward (a b : dims) : result dims :=
  match broadcast_shapes a b with
  | Some s => Ok s
  | None => Raise
  end.

(** ** [ResidualBlock] *)

Record ResidualBlock : Type := mkResidualBlock {
  rb_conv_1 : Conv2d;
  rb_in_1 : InstanceNorm2d;
  rb_conv_2 : Conv2d;
  rb_in_2 : InstanceNorm2d
}.

(** [ResidualBlock.__init__(channels)] *)
Definition ResidualBlock_init (channels : nat) : ResidualBlock :=
  mkResidualBlock
    (mkConv2d channels channels 3 1 1 pad_reflect)
    (mkInstanceNorm2d channels false)
    (mkConv2d channels channels 3 1 1 pad_reflect)
    (mkInstanceNorm2d channels false).

Definition ResidualBlock_forward (m : ResidualBlock) (x : dims)
  : result dims :=
  let residual := x in
  let/r x := Conv2d_forward (rb_conv_1 m) x in
  let/r x := InstanceNorm2d_forward (rb_in_1 m) x in
  let/r x := ReLU_forward x in
  let/r x := Conv2d_forward (rb_conv_2 m) x in
  let/r x := InstanceNorm2d_forward (rb_in_2 m) x in
  add_forward x residual.

(** ** [UpsampleConvLayer] *)

Record UpsampleConvLayer : Type := mkUpsampleConvLayer {
  upsample : option nat;
  conv2d : Conv2d
}.

(** [UpsampleConvLayer.__init__(in, out, kernel_size, stride, upsample)] *)
Definition UpsampleConvLayer_init (in_ch out_ch k s : nat)
    (up : option nat) : UpsampleConvLayer :=
  mkUpsampleConvLayer up (mkConv2d in_ch out_ch k s (k / 2) pad_reflect).

(** [if self.upsample:] is false of [None] and of 0. *)
Definition UpsampleConvLayer_forward (m : UpsampleConvLayer) (x : dims)
  : result dims :=
  let/r x :=
    match upsample m with
    | Some (S f) => Upsample_forward (S f) x
    | _ => Ok x
    end in
  Conv2d_forward (conv2d m) x.

(** ** [StyleTransferNet] *)

Record StyleTransferNet : Type := mkStyleTransferNet {
  conv_1 : Conv2d;  in_1 : InstanceNorm2d;
  conv_2 : Conv2d;  in_2 : InstanceNorm2d;
  conv_3 : Conv2d;  in_3 : InstanceNorm2d;
  res_1 : ResidualBlock;
  res_2 : ResidualBlock;
  res_3 : ResidualBlock;
  res_4 : ResidualBlock;
  res_5 : ResidualBlock;
  up_1 : UpsampleConvLayer;  in_4 : InstanceNorm2d;
  up_2 : UpsampleConvLayer;  in_5 : InstanceNorm2d;
  conv_f : Conv2d;  in_out : InstanceNorm2d
}.

(** [StyleTransferNet.__init__()] ([ref_pad] is created there but never
    applied by [forward]). *)
Definition StyleTransferNet_init : StyleTransferNet :=
  mkStyleTransferNet
    (mkConv2d 3 32 9 1 4 pad_reflect) (mkInstanceNorm2d 32 true)
    (mkConv2d 32 64 3 2 1 pad_reflect) (mkInstanceNorm2d 64 true)
    (mkConv2d 64 128 3 2 1 pad_reflect) (mkInstanceNorm2d 128 true)
    (ResidualBlock_init 128)
    (ResidualBlock_init 128)
    (ResidualBlock_init 128)
    (ResidualBlock_init 128)
    (ResidualBlock_init 128)
    (UpsampleConvLayer_init 128 64 3 1 (Some 2)) (mkInstanceNorm2d 64 true)
    (UpsampleConvLayer_init 64 32 3 1 (Some 2)) (mkInstanceNorm2d 32 true)
    (mkConv2d 32 3 9 1 4 pad_reflect) (mkInstanceNorm2d 3 true).

Definition StyleTransferNet_forward (m : StyleTransferNet) (x : dims)
  : result dims :=
  let/r x := Conv2d_forward (conv_1 m) x in
  let/r x := InstanceNorm2d_forward (in_1 m) x in
  let/r x := ReLU_forward x in
  let/r x := Conv2d_forward (conv_2 m) x in
  let/r x := InstanceNorm2d_forward (in_2 m) x in
  let/r x := ReLU_forward x in
  let/r x := Conv2d_forward (conv_3 m) x in
  let/r x := InstanceNorm2d_forward (in_3 m) x in
  let/r x := ReLU_forward x in
  let/r x := ResidualBlock_forward (res_1 m) x in
  let/r x := ResidualBlock_forward (res_2 m) x in
  let/r x := ResidualBlock_forward (res_3 m) x in
  let/r x := ResidualBlock_forward (res_4 m) x in
  let/r x := ResidualBlock_forward (res_5 m) x in
  let/r x := UpsampleConvLayer_forward (up_1 m) x in
  let/r x := InstanceNorm2d_forward (in_4 m) x in
  let/r x := ReLU_forward x in
  let/r x := UpsampleConvLayer_forward (up_2 m) x in
  let/r x := InstanceNorm2d_forward (in_5 m) x in
  let/r x := ReLU_forward x in
  let/r x := Conv2d_forward (conv_f m) x in
  InstanceNorm2d_forward (in_out m) x.

(** The network applied to a batch of the given shape. *)
Definition StyleTransferNet_shape (x : dims) : result dims :=
  StyleTransferNet_forward StyleTransferNet_init x.

(** ** [Vgg16] *)

Inductive layer : Type :=
| LConv (c : Conv2d)
| LReLU
| LMaxPool (k s : nat).

Definition layer_forward (l : layer) (x : dims) : result dims :=
  match l with
  | LConv c => Conv2d_forward c x
  | LReLU => ReLU_forward x
  | LMaxPool k s => MaxPool2d_forward k s x
  end.

(** [nn.Sequential]: the layers in order. *)
Fixpoint Sequential_forward (ls : list layer) (x : dims) : result dims :=
  match ls with
  | [] => Ok x
  | l :: ls' => let/r y := layer_forward l x in Sequential_forward ls' y
  end.

(** [torchvision.models.vgg16().features].  torchvision is a library the
    repository imports; its layer table is built from configuration "D":
    a number is a 3x3 convolution with that many outputs (padding 1)
    followed by a ReLU, [P] is a 2x2 max-pooling of stride 2. *)
Inductive cfg_item : Type := P | V (out : nat).

Definition cfg_D : list cfg_item :=
  [V 64; V 64; P; V 128; V 128; P; V 256; V 256; V 256; P;
   V 512; V 512; V 512; P; V 512; V 512; V 512; P].

Fixpoint make_layers (cfg : list cfg_item) (in_ch : nat) : list layer :=
  match cfg with
  | [] => []
  | P :: rest => LMaxPool 2 2 :: make_layers rest in_ch
  | V v :: rest =>
      LConv (mkConv2d in_ch v 3 1 1 pad_zeros) :: LReLU :: make_layers rest v
  end.

Definition vgg16_features : list layer := make_layers cfg_D 3.

(** [feats[a], ..., feats[b-1]], as the loops of [Vgg16.__init__] add
    them to a slice. *)
Definition feats_range (feats : list layer) (a b : nat) : list layer :=
  firstn (b - a) (skipn a feats).

Record Vgg16 : Type := mkVgg16 {
  slice1 : list layer;
  slice2 : list layer;
  slice3 : list layer;
  slice4 : list layer
}.

(** [Vgg16.__init__()] *)
Definition Vgg16_init : Vgg16 :=
  let feats := vgg16_features in
  mkVgg16 (feats_range feats 0 4) (feats_range feats 4 9)
          (feats_range feats 9 16) (feats_range feats 16 23).

(** [Vgg16.forward(x)]: the shapes of the four returned feature maps. *)
Definition Vgg16_forward (m : Vgg16) (x : dims) : result (list dims) :=
  let/r x := Sequential_forward (slice1 m) x in
  let relu1_2 := x in
  let/r x := Sequential_forward (slice2 m) x in
  let relu2_2 := x in
  let/r x := Sequential_forward (slice3 m) x in
  let relu3_3 := x in
  let/r x := Sequential_forward (slice4 m) x in
  let relu4_3 := x in
  Ok [relu1_2; relu2_2; relu3_3; relu4_3].

Definition Vgg16_shapes (x : dims) : result (list dims) :=
  Vgg16_forward Vgg16_init x.

End NN.
Export NN.

(* ================================================================== *)
(** * The specification's formulas *)

Module Spec.

Definition qn (n : nat) : Q := inject_Z (Z.of_nat n).

(** The element [x[b, c, h, w]] of a 4-dimensional tensor. *)
Definition at4 (x : tensor) (b c h w : nat) : Q := val x [b; c; h; w].

Definition qsum4 (B C H W : nat) (f : nat -> nat -> nat -> nat -> Q) : Q :=
  qsum B (fun b => qsum C (fun c => qsum H (fun h => qsum W (fun w =>
    f b c h w)))).

(** Section 4.5, TotalVariationLoss: "mean absolute difference between
    horizontally adjacent pixels plus mean absolute difference between
    vertically adjacent pixels"; "the last row/column has no next
    neighbor and is excluded from the respective sum". *)
Definition TotalVariationLoss (B C H W : nat) (x : tensor) : Q :=
  (qsum4 B C H (W - 1) (fun b c h w =>
     Qabs (at4 x b c h w - at4 x b c h (S w)))
     / qn (B * C * H * (W - 1))
   +
   qsum4 B C (H - 1) W (fun b c h w =>
     Qabs (at4 x b c h w - at4 x b c (S h) w))
     / qn (B * C * (H - 1) * W))%Q.

(** Section 3, Gram matrix: "flattening spatial dimensions and taking
    the outer product of the channel-feature matrix with itself,
    normalized by (height x width)": entry (i, j) of sample [b]. *)
Definition GramMatrix (H W : nat) (x : tensor) (b i j : nat) : Q :=
  (qsum H (fun p => qsum W (fun q =>
     at4 x b i p q * at4 x b j p q)) / qn (H * W))%Q.

(** Section 4.6, ComputeLosses(contentImage, generatedImage), steps 1-5,
    for a session with the given extractor, cached style features and
    weights. *)
Definition ComputeLosses (s : Loss_plst)
    (contentImage generatedImage : tensor)
  : result (scalar * scalar * scalar) :=
  let/r fc := vgg s contentImage in
  let/r (_, _, target3, _) := unpack4 fc in
  let/r fg := vgg s generatedImage in
  let/r (g1, g2, g3, g4) := unpack4 fg in
  let/r content := L_feat g3 target3 in
  let/r st1 := L_style g1 (style_relu1_2 s) in
  let/r st2 := L_style g2 (style_relu2_2 s) in
  let/r st3 := L_style g3 (style_relu3_3 s) in
  let/r st4 := L_style g4 (style_relu4_3 s) in
  let/r tv := L_tv generatedImage in
  Ok (smul (Some (lambda_c s)) content,
      smul (Some (lambda_s s)) (sadd (sadd (sadd st1 st2) st3) st4),
      smul (Some (lambda_tv s)) tv).

(** The style loss of one stage, spelled out: [l] is the mean squared
    difference between the Gram matrix of [f] and the Gram matrix of
    [s]. *)
Definition style_term (f s : tensor) (l : scalar) : Prop :=
  exists Gf Gs, gram_matrix f = Ok Gf
                /\ gram_matrix s = Ok Gs
                /\ mse_loss Gf Gs = Ok l.

(** An image whose value does not depend on the pixel position. *)
Definition spatially_constant (x : tensor) : Prop :=
  forall b c h w h' w',
    in_bounds (shape x) [b; c; h; w] ->
    in_bounds (shape x) [b; c; h'; w'] ->
    at4 x b c h w == at4 x b c h' w'.

(** Channel count, height and width of a batch shape. *)
Definition channels (s : dims) : nat := nth 1 s 0.
Definition height (s : dims) : nat := nth 2 s 0.
Definition width (s : dims) : nat := nth 3 s 0.

(** [ceil(d / 4)] *)
Definition ceil4 (d : nat) : nat := (d + 3) / 4.

(** An extractor that, on the image [x], behaves like [Vgg16] up to the
    values of its weights: it returns finite feature maps of the shapes
    [Vgg16.forward] produces. *)
Definition extracts_like_Vgg16 (e : extractor) (x : tensor) : Prop :=
  exists fs, e x = Ok fs
             /\ Vgg16_shapes (shape x) = Ok (map shape fs)
             /\ Forall finite fs.

End Spec.
Export Spec.

(* ================================================================== *)
(** * Sample data *)

Module Sample.

(** A one-sample, two-channel, 2x2 image. *)
Definition img : tensor :=
  tensor4 [[[[1; 2]; [4; 8]]; [[1; 0]; [0; 1]]]]%Q.

(** A second image of the same shape. *)
Definition img' : tensor :=
  tensor4 [[[[3; 1]; [0; 2]]; [[5; 5]; [1; 0]]]]%Q.

(** A constant image: 7 everywhere in channel 0, 2 in channel 1. *)
Definition flat : tensor :=
  tensor4 [[[[7; 7]; [7; 7]]; [[2; 2]; [2; 2]]]]%Q.

(** A small stand-in for an extractor: four feature maps computed from
    the image without learned weights. *)
Definition toy_vgg : extractor :=
  fun x => Ok [x; tabs x; tdivn x 2; x].

(** An extractor with the output shapes of [Vgg16]; its features are
    made up from the image's first element and the position. *)
Definition shaped_vgg : extractor :=
  fun x =>
    match Vgg16_shapes (shape x) with
    | Ok ss =>
        Ok (map (fun s => mkTensor s (fun idx =>
                   Some (Qplus (val x [0; 0; 0; 0]) (qn (ravel s idx)))))
              ss)
    | Raise => Raise
    end.

(** An image of the given shape whose elements count up in row-major
    order: 0, 1, 2, ... *)
Definition ramp (s : list nat) : tensor :=
  mkTensor s (fun idx => Some (qn (ravel s idx))).

(** An image of the given shape with the value [q] everywhere. *)
Definition fill (s : list nat) (q : Q) : tensor :=
  mkTensor s (fun _ => Some q).

End Sample.

(* ================================================================== *)
(** * Comparing outcomes, and more sample data *)

(** Two outcomes of a loss function agree: both raise, or both return
    the same scalar. *)
Definition same_outcome (r1 r2 : result scalar) : Prop :=
  match r1, r2 with
  | Ok a, Ok b => seqv a b
  | Raise, Raise => True
  | _, _ => False
  end.

Module Probe.

(** [x.transpose(2, 3).contiguous()]: rows and columns exchanged. *)
Definition transposed (x : tensor) : tensor :=
  mkTensor (swap 2 3 (shape x)) (fun idx => get x (swap 2 3 idx)).

(** [k * x + c] on a ramp image. *)
Definition affine_ramp (s : list nat) (k c : Q) : tensor :=
  mkTensor s (fun idx => Some (Qplus (Qmult k (qn (ravel s idx))) c)).

(** A session on [Sample.shaped_vgg] with the given style image. *)
Definition session (style : tensor) (lc ls ltv : Q) : Loss_plst :=
  match fst (init Sample.shaped_vgg style lc ls ltv []) with
  | Ok s => s
  | Raise => mkLoss_plst Sample.shaped_vgg style lc ls ltv
               style style style style
  end.

End Probe.

(* ================================================================== *)
(** * Facts about scalars and sums *)

Section ScalarFacts.

Local Open Scope Q_scope.

Lemma seqv_refl (a : scalar) : seqv a a.
Proof. destruct a; simpl; [reflexivity | exact I]. Qed.

Lemma seqv_sym (a b : scalar) : seqv a b -> seqv b a.
Proof. destruct a, b; simpl; auto. intros E. symmetry. exact E. Qed.

Lemma smul_comm (a b : scalar) : seqv (smul a b) (smul b a).
Proof. destruct a, b; simpl; try exact I. apply Qmult_comm. Qed.

Lemma sadd_seqv (a a' b b' : scalar) :
  seqv a a' -> seqv b b' -> seqv (sadd a b) (sadd a' b').
Proof.
  destruct a, a', b, b'; simpl; try tauto.
  intros E1 E2. rewrite E1, E2. reflexivity.
Qed.

Lemma sdivn_seqv (a a' : scalar) (n : nat) :
  seqv a a' -> seqv (sdivn a n) (sdivn a' n).
Proof.
  destruct a, a'; simpl; try tauto.
  intros E. destruct (n =? 0); simpl; [exact I | ].
  rewrite E. reflexivity.
Qed.

Lemma ssum_seqv (n : nat) (f g : nat -> scalar) :
  (forall i, (i < n)%nat -> seqv (f i) (g i)) -> seqv (ssum n f) (ssum n g).
Proof.
  induction n as [| n IH]; intros E; simpl.
  - reflexivity.
  - apply sadd_seqv; [apply IH; intros; apply E; lia | apply E; lia].
Qed.

Lemma ssum_finite (n : nat) (f : nat -> scalar) (g : nat -> Q) :
  (forall i, (i < n)%nat -> f i = Some (g i)) -> ssum n f = Some (qsum n g).
Proof.
  induction n as [| n IH]; intros E; simpl.
  - reflexivity.
  - rewrite IH by (intros; apply E; lia).
    rewrite E by lia. reflexivity.
Qed.

Lemma qsum_ext (n : nat) (f g : nat -> Q) :
  (forall i, (i < n)%nat -> f i == g i) -> qsum n f == qsum n g.
Proof.
  induction n as [| n IH]; intros E; simpl.
  - reflexivity.
  - rewrite IH by (intros; apply E; lia).
    rewrite (E n) by lia. reflexivity.
Qed.

Lemma qsum_nonneg (n : nat) (f : nat -> Q) :
  (forall i, (i < n)%nat -> 0 <= f i) -> 0 <= qsum n f.
Proof.
  induction n as [| n IH]; intros E; simpl.
  - apply Qle_refl.
  - assert (0 <= qsum n f) by (apply IH; intros; apply E; lia).
    assert (0 <= f n) by (apply E; lia).
    lra.
Qed.

Lemma qsum_zero (n : nat) (f : nat -> Q) :
  (forall i, (i < n)%nat -> f i == 0) -> qsum n f == 0.
Proof.
  induction n as [| n IH]; intros E; simpl.
  - reflexivity.
  - rewrite IH by (intros; apply E; lia).
    rewrite (E n) by lia. lra.
Qed.

Lemma qsum_split (a b : nat) (f : nat -> Q) :
  qsum (a + b) f == qsum a f + qsum b (fun i => f (a + i)%nat).
Proof.
  induction b as [| b IH].
  - rewrite Nat.add_0_r. simpl. lra.
  - replace (a + S b)%nat with (S (a + b)) by lia.
    simpl. rewrite IH. lra.
Qed.

(** Summing over a flattened [h x w] grid is summing row by row. *)
Lemma qsum_flatten (h w : nat) (f : nat -> nat -> Q) :
  qsum (h * w) (fun k => f (k / w)%nat (k mod w)%nat)
  == qsum h (fun p => qsum w (fun q => f p q)).
Proof.
  induction h as [| h IH].
  - reflexivity.
  - replace (S h * w)%nat with (h * w + w)%nat by lia.
    rewrite qsum_split, IH. simpl.
    apply Qplus_comp; [reflexivity | ].
    apply qsum_ext. intros q Hq.
    assert (Hw : w <> 0%nat) by lia.
    replace (h * w + q)%nat with (q + h * w)%nat by lia.
    rewrite Nat.div_add by exact Hw.
    rewrite Nat.Div0.mod_add.
    rewrite Nat.div_small, Nat.mod_small by exact Hq.
    reflexivity.
Qed.

Lemma qn_pos (n : nat) : n <> 0%nat -> 0 < qn n.
Proof.
  intros Hn. unfold qn.
  replace 0 with (inject_Z 0) by reflexivity.
  rewrite <- Zlt_Qlt. lia.
Qed.

Lemma Qdiv_nonneg (a b : Q) : 0 <= a -> 0 < b -> 0 <= a / b.
Proof.
  intros Ha Hb. apply Qle_shift_div_l; [exact Hb | lra].
Qed.

Lemma Qdiv_zero (a b : Q) : a == 0 -> a / b == 0.
Proof. intros E. rewrite E. unfold Qdiv. lra. Qed.

End ScalarFacts.

(* ================================================================== *)
(** * Facts about tensors *)

Section TensorFacts.

Local Open Scope Q_scope.

Lemma finite_val (t : tensor) (idx : list nat) :
  finite t -> in_bounds (shape t) idx -> get t idx = Some (val t idx).
Proof.
  intros F B. unfold val.
  destruct (get t idx) eqn:E; [reflexivity | ].
  exfalso. exact (F idx B E).
Qed.

Lemma in_bounds_length (s idx : list nat) :
  in_bounds s idx -> length idx = length s.
Proof.
  revert idx. induction s as [| d s IH]; intros [| i idx]; simpl;
    try tauto.
  intros [_ B]. f_equal. apply IH. exact B.
Qed.

Lemma numel_pos (s : list nat) :
  Forall (fun d => (0 < d)%nat) s -> numel s <> 0%nat.
Proof.
  induction 1 as [| d s Hd _ IH]; simpl; [lia | nia].
Qed.

Lemma sum_over_seqv (s : list nat) (f g : list nat -> scalar) :
  (forall idx, in_bounds s idx -> seqv (f idx) (g idx)) ->
  seqv (sum_over s f) (sum_over s g).
Proof.
  revert f g. induction s as [| d s IH]; intros f g E; simpl.
  - apply E. exact I.
  - apply ssum_seqv. intros i Hi. apply IH.
    intros idx B. apply E. simpl. split; assumption.
Qed.

Lemma sum_over_finite (s : list nat) (f : list nat -> scalar)
    (g : list nat -> Q) :
  (forall idx, in_bounds s idx -> f idx = Some (g idx)) ->
  sum_over s f = Some (qsum_over s g).
Proof.
  revert f g. induction s as [| d s IH]; intros f g E; simpl.
  - apply E. exact I.
  - apply ssum_finite. intros i Hi. apply IH.
    intros idx B. apply E. simpl. split; assumption.
Qed.

Lemma qsum_over_ext (s : list nat) (f g : list nat -> Q) :
  (forall idx, in_bounds s idx -> f idx == g idx) ->
  qsum_over s f == qsum_over s g.
Proof.
  revert f g. induction s as [| d s IH]; intros f g E; simpl.
  - apply E. exact I.
  - apply qsum_ext. intros i Hi. apply IH.
    intros idx B. apply E. simpl. split; assumption.
Qed.

Lemma qsum_over_nonneg (s : list nat) (f : list nat -> Q) :
  (forall idx, in_bounds s idx -> 0 <= f idx) -> 0 <= qsum_over s f.
Proof.
  revert f. induction s as [| d s IH]; intros f E; simpl.
  - apply E. exact I.
  - apply qsum_nonneg. intros i Hi. apply IH.
    intros idx B. apply E. simpl. split; assumption.
Qed.

Lemma qsum_over_zero (s : list nat) (f : list nat -> Q) :
  (forall idx, in_bounds s idx -> f idx == 0) -> qsum_over s f == 0.
Proof.
  revert f. induction s as [| d s IH]; intros f E; simpl.
  - apply E. exact I.
  - apply qsum_zero. intros i Hi. apply IH.
    intros idx B. apply E. simpl. split; assumption.
Qed.

(** The mean of a tensor of finite values over a non-empty shape. *)
Lemma mean_finite (s : list nat) (f : list nat -> scalar)
    (g : list nat -> Q) :
  (forall idx, in_bounds s idx -> f idx = Some (g idx)) ->
  numel s <> 0%nat ->
  mean (mkTensor s f) = Some (qsum_over s g / qn (numel s)).
Proof.
  intros E Hn. unfold mean. simpl.
  rewrite (sum_over_finite s f g E). simpl.
  destruct (numel s =? 0)%nat eqn:Z.
  - apply Nat.eqb_eq in Z. contradiction.
  - reflexivity.
Qed.

(** The mean over an empty shape is not a number. *)
Lemma mean_empty (t : tensor) : numel (shape t) = 0%nat -> mean t = None.
Proof.
  intros Z. unfold mean. rewrite Z.
  destruct (sum_over (shape t) (get t)); reflexivity.
Qed.

(** ** Broadcasting a shape with itself *)

Lemma bdim_refl (a : nat) : bdim a a = Some a.
Proof. unfold bdim. rewrite Nat.eqb_refl. reflexivity. Qed.

Lemma bshape_rev_refl (r : list nat) : bshape_rev r r = Some r.
Proof.
  induction r as [| a r IH]; simpl; [reflexivity | ].
  rewrite bdim_refl, IH. reflexivity.
Qed.

Lemma broadcast_shapes_refl (s : list nat) : broadcast_shapes s s = Some s.
Proof.
  unfold broadcast_shapes. rewrite bshape_rev_refl. simpl.
  rewrite rev_involutive. reflexivity.
Qed.

Lemma bindex_aux (s idx : list nat) :
  in_bounds s idx ->
  map (fun di => if (fst di =? 1)%nat then 0%nat else snd di)
      (combine s idx) = idx.
Proof.
  revert idx. induction s as [| d s IH]; intros [| i idx]; simpl;
    try tauto.
  intros [Hi B]. rewrite IH by exact B.
  destruct (d =? 1)%nat eqn:E; [ | reflexivity].
  apply Nat.eqb_eq in E. f_equal. lia.
Qed.

(** Expanding a tensor to its own shape reads every element in place. *)
Lemma bindex_in_bounds (s idx : list nat) :
  in_bounds s idx -> bindex s idx = idx.
Proof.
  intros B. unfold bindex.
  rewrite (in_bounds_length s idx B), Nat.sub_diag. simpl.
  apply bindex_aux. exact B.
Qed.

(** ** Row-major offsets *)

Lemma ravel_lt (s idx : list nat) :
  in_bounds s idx -> (ravel s idx < numel s)%nat.
Proof.
  revert idx. induction s as [| d s IH]; intros [| i idx]; simpl;
    try tauto.
  - lia.
  - intros [Hi B]. specialize (IH idx B). nia.
Qed.

Lemma unravel_ravel (s idx : list nat) :
  in_bounds s idx -> unravel s (ravel s idx) = idx.
Proof.
  revert idx. induction s as [| d s IH]; intros [| i idx]; simpl;
    try tauto.
  intros [Hi B].
  pose proof (ravel_lt s idx B) as L.
  assert (Hm : numel s <> 0%nat) by lia.
  replace (i * numel s + ravel s idx)%nat
    with (ravel s idx + i * numel s)%nat by lia.
  rewrite Nat.div_add by exact Hm.
  rewrite Nat.Div0.mod_add.
  rewrite Nat.div_small, Nat.mod_small by exact L.
  simpl. rewrite IH by exact B. reflexivity.
Qed.

End TensorFacts.

(* ================================================================== *)
(** * Facts about the loss terms *)

Section LossFacts.

Lemma clamp_m1 (n : nat) : clamp n (-1) = n - 1.
Proof. unfold clamp. destruct (Z.ltb_spec (-1) 0); lia. Qed.

Lemma clamp_1 (n : nat) : clamp n 1 = Nat.min 1 n.
Proof. reflexivity. Qed.

Lemma in_bounds4 (B C H W : nat) (idx : list nat) :
  in_bounds [B; C; H; W] idx ->
  exists b c h w, idx = [b; c; h; w] /\ b < B /\ c < C /\ h < H /\ w < W.
Proof.
  destruct idx as [| b [| c [| h [| w [| ? ?]]]]]; simpl; try tauto.
  intros (Hb & Hc & Hh & Hw & _). exists b, c, h, w. auto.
Qed.

(** The two differences [L_tv] averages, as rationals. *)
Lemma L_tv_finite (preds : tensor) (B C H W : nat) :
  shape preds = [B; C; H; W] -> finite preds ->
  1 <= B -> 1 <= C -> 2 <= H -> 2 <= W ->
  L_tv preds =
  Ok (Some
    (qsum_over [B; C; H; (W - 1)%nat] (fun idx =>
       Qabs (val preds idx - val preds (on_nth 3 S idx)))
       / qn (numel [B; C; H; (W - 1)%nat])
     +
     qsum_over [B; C; (H - 1)%nat; W] (fun idx =>
       Qabs (val preds idx - val preds (on_nth 2 S idx)))
       / qn (numel [B; C; (H - 1)%nat; W]))%Q).
Proof.
  intros Hs F HB HC HH HW.
  unfold L_tv, getitem. rewrite Hs. simpl slice_shape. cbn [rbind].
  unfold tsub, map2. cbn [shape].
  rewrite !Nat.sub_0_r, !clamp_m1, !clamp_1.
  replace (W - Nat.min 1 W) with (W - 1) by lia.
  replace (H - Nat.min 1 H) with (H - 1) by lia.
  rewrite !broadcast_shapes_refl. cbn [rbind].
  unfold tabs. cbn [shape get expand].
  rewrite (mean_finite [B; C; H; W - 1] _ (fun idx =>
     Qabs (val preds idx - val preds (on_nth 3 S idx))%Q)).
  2: { intros idx Bd.
       replace (B - 0) with B by lia. replace (C - 0) with C by lia.
       replace (H - 0) with H by lia.
       replace (clamp W (-1) - 0) with (W - 1) by (rewrite clamp_m1; lia).
       replace (W - clamp W 1) with (W - 1) by (rewrite clamp_1; lia).
       rewrite (bindex_in_bounds _ _ Bd).
       apply in_bounds4 in Bd.
       destruct Bd as (b & c & h & w & -> & Hb & Hc & Hh & Hw).
       destruct W as [| [| W']]; try lia.
       cbn [slice_index slice_bounds full upto from fst snd clamp
            Nat.min Z.to_nat Pos.to_nat Pos.iter_op Z.ltb Z.compare
            Nat.add on_nth].
       rewrite !(finite_val preds) by
         (try assumption; rewrite Hs; simpl; repeat split; lia).
       reflexivity. }
  2: { apply numel_pos. repeat constructor; lia. }
  rewrite (mean_finite [B; C; H - 1; W] _ (fun idx =>
     Qabs (val preds idx - val preds (on_nth 2 S idx))%Q)).
  2: { intros idx Bd.
       replace (B - 0) with B by lia. replace (C - 0) with C by lia.
       replace (W - 0) with W by lia.
       replace (clamp H (-1) - 0) with (H - 1) by (rewrite clamp_m1; lia).
       replace (H - clamp H 1) with (H - 1) by (rewrite clamp_1; lia).
       rewrite (bindex_in_bounds _ _ Bd).
       apply in_bounds4 in Bd.
       destruct Bd as (b & c & h & w & -> & Hb & Hc & Hh & Hw).
       destruct H as [| [| H']]; try lia.
       cbn [slice_index slice_bounds full upto from fst snd clamp
            Nat.min Z.to_nat Pos.to_nat Pos.iter_op Z.ltb Z.compare
            Nat.add on_nth].
       rewrite !(finite_val preds) by
         (try assumption; rewrite Hs; simpl; repeat split; lia).
       reflexivity. }
  2: { apply numel_pos. repeat constructor; lia. }
  reflexivity.
Qed.

(** [L_tv] never raises on a 4-dimensional batch. *)
Lemma L_tv_returns (preds : tensor) (B C H W : nat) :
  shape preds = [B; C; H; W] -> exists v, L_tv preds = Ok v.
Proof.
  intros Hs.
  unfold L_tv, getitem. rewrite Hs. simpl slice_shape. cbn [rbind].
  unfold tsub, map2. cbn [shape].
  rewrite !Nat.sub_0_r, !clamp_m1, !clamp_1.
  replace (W - Nat.min 1 W) with (W - 1) by lia.
  replace (H - Nat.min 1 H) with (H - 1) by lia.
  rewrite !broadcast_shapes_refl. cbn [rbind].
  eexists. reflexivity.
Qed.

(** With a single row or a single column one of the two means is taken
    over no element at all. *)
Lemma L_tv_degenerate (preds : tensor) (B C H W : nat) :
  shape preds = [B; C; H; W] -> H <= 1 \/ W <= 1 ->
  L_tv preds = Ok None.
Proof.
  intros Hs HW.
  unfold L_tv, getitem. rewrite Hs. simpl slice_shape. cbn [rbind].
  unfold tsub, map2. cbn [shape].
  rewrite !Nat.sub_0_r, !clamp_m1, !clamp_1.
  replace (W - Nat.min 1 W) with (W - 1) by lia.
  replace (H - Nat.min 1 H) with (H - 1) by lia.
  rewrite !broadcast_shapes_refl. cbn [rbind].
  f_equal.
  destruct HW as [Hh | Hw].
  - rewrite (mean_empty (tabs (mkTensor [B; C; H - 1; W] _))).
    + destruct (mean _); reflexivity.
    + simpl. replace (H - 1) with 0 by lia. lia.
  - rewrite (mean_empty (tabs (mkTensor [B; C; H; W - 1] _))).
    + reflexivity.
    + simpl. replace (W - 1) with 0 by lia. lia.
Qed.

(** The mean squared error of a finite, non-empty tensor against itself
    is zero. *)
Lemma mse_loss_self (x : tensor) :
  finite x -> numel (shape x) <> 0 ->
  exists q, mse_loss x x = Ok (Some q) /\ (q == 0)%Q.
Proof.
  intros F Hn. unfold mse_loss.
  rewrite broadcast_shapes_refl.
  rewrite (mean_finite (shape x) _ (fun idx =>
     (val x idx - val x idx) * (val x idx - val x idx))%Q).
  - eexists. split; [reflexivity | ].
    apply Qdiv_zero. apply qsum_over_zero. intros idx _. ring.
  - intros idx Bd. cbn [get expand].
    rewrite (bindex_in_bounds _ _ Bd).
    rewrite (finite_val x idx F Bd). reflexivity.
  - exact Hn.
Qed.

End LossFacts.

Section GramFacts.

(** What [gram_matrix] returns on a 4-dimensional input. *)
Lemma gram_matrix_entries (x : tensor) (b c h w : nat) :
  shape x = [b; c; h; w] ->
  exists G, gram_matrix x = Ok G
    /\ shape G = [b; c; c]
    /\ forall n i j,
         get G [n; i; j] =
         sdivn (ssum (h * w) (fun k =>
                  smul (features_at x b c h w n i k)
                       (features_at x b c h w n j k))) (h * w).
Proof.
  intros Hs. unfold gram_matrix. rewrite Hs.
  unfold view. rewrite Hs.
  replace (numel [b; c; h; w]) with (numel [b; c; h * w])
    by (simpl; lia).
  rewrite Nat.eqb_refl. cbn [rbind].
  unfold transpose. cbn [shape length Nat.ltb Nat.leb andb rbind].
  unfold bmm. cbn [shape swap nth_error on_nth].
  rewrite !Nat.eqb_refl. cbn [andb rbind].
  eexists. split; [reflexivity | ]. split; reflexivity.
Qed.

(** Flattening the two spatial dimensions: position [k] of the flat
    axis is row [k / w], column [k mod w]. *)
Lemma features_index (b c h w n i k : nat) :
  n < b -> i < c -> k < h * w ->
  unravel [b; c; h; w] (ravel [b; c; h * w] [n; i; k])
  = [n; i; k / w; k mod w].
Proof.
  intros Hn Hi Hk.
  assert (Hw : w <> 0) by nia.
  assert (E : ravel [b; c; h * w] [n; i; k]
              = ravel [b; c; h; w] [n; i; k / w; k mod w]).
  { simpl. pose proof (Nat.div_mod_eq k w) as D.
    remember (k / w) as q. remember (k mod w) as r. subst k. ring. }
  rewrite E. apply unravel_ravel. simpl.
  pose proof (Nat.mod_upper_bound k w Hw).
  assert (k / w < h) by (apply Nat.Div0.div_lt_upper_bound; lia).
  repeat split; lia.
Qed.

Lemma gram_matrix_finite (x : tensor) (b c h w : nat) :
  shape x = [b; c; h; w] -> finite x -> h * w <> 0 ->
  exists G, gram_matrix x = Ok G
    /\ shape G = [b; c; c]
    /\ finite G
    /\ forall n i j, n < b -> i < c -> j < c ->
         exists q, get G [n; i; j] = Some q
                   /\ (q == GramMatrix h w x n i j)%Q.
Proof.
  intros Hs F Hhw.
  destruct (gram_matrix_entries x b c h w Hs) as (G & HG & HsG & HE).
  assert (V : forall n i j, n < b -> i < c -> j < c ->
    get G [n; i; j] =
    Some (qsum (h * w) (fun k =>
            at4 x n i (k / w) (k mod w) * at4 x n j (k / w) (k mod w))
          / qn (h * w))%Q).
  { intros n i j Hn Hi Hj. rewrite HE.
    rewrite (ssum_finite _ _ (fun k =>
      at4 x n i (k / w) (k mod w) * at4 x n j (k / w) (k mod w))%Q).
    - simpl. destruct (h * w =? 0) eqn:Z; [ | reflexivity].
      apply Nat.eqb_eq in Z. contradiction.
    - intros k Hk. unfold features_at.
      rewrite !features_index by assumption.
      assert (Hw : w <> 0) by nia.
      pose proof (Nat.mod_upper_bound k w Hw).
      assert (k / w < h) by (apply Nat.Div0.div_lt_upper_bound; lia).
      rewrite !(finite_val x) by
        (try assumption; rewrite Hs; simpl; repeat split; lia).
      reflexivity. }
  exists G. repeat split; try assumption.
  - intros idx Bd. rewrite HsG in Bd.
    destruct idx as [| n [| i [| j [| ? ?]]]]; simpl in Bd; try tauto.
    destruct Bd as (Hn & Hi & Hj & _).
    rewrite V by assumption. discriminate.
  - intros n i j Hn Hi Hj. eexists. split; [apply V; assumption | ].
    unfold GramMatrix.
    rewrite (qsum_flatten h w (fun p q =>
               at4 x n i p q * at4 x n j p q)%Q).
    reflexivity.
Qed.

(** The Gram matrix is symmetric, whatever the values of the input. *)
Lemma gram_matrix_sym (x : tensor) (b c h w : nat) :
  shape x = [b; c; h; w] ->
  exists G, gram_matrix x = Ok G
    /\ forall n i j, seqv (get G [n; i; j]) (get G [n; j; i]).
Proof.
  intros Hs.
  destruct (gram_matrix_entries x b c h w Hs) as (G & HG & _ & HE).
  exists G. split; [exact HG | ].
  intros n i j. rewrite !HE.
  apply sdivn_seqv. apply ssum_seqv. intros k _. apply smul_comm.
Qed.

Lemma L_style_self (x : tensor) (b c h w : nat) :
  shape x = [b; c; h; w] -> finite x ->
  1 <= b -> 1 <= c -> 1 <= h -> 1 <= w ->
  exists q, L_style x x = Ok (Some q) /\ (q == 0)%Q.
Proof.
  intros Hs F Hb Hc Hh Hw.
  destruct (gram_matrix_finite x b c h w Hs F) as (G & HG & HsG & FG & _);
    [nia | ].
  unfold L_style. rewrite HG. cbn [rbind].
  apply mse_loss_self; [exact FG | ].
  rewrite HsG. apply numel_pos. repeat constructor; lia.
Qed.

End GramFacts.

(* ================================================================== *)
(** * The loss terms: total variation, Gram matrix, identity case *)

Section LossTheorems.

Local Open Scope Q_scope.

(** C4: on an image batch of finite values with at least two rows and two
    columns, [L_tv] returns a non-negative number; that number is the
    mean absolute difference of horizontally adjacent pixels plus the
    mean absolute difference of vertically adjacent pixels, the last
    column and the last row having no neighbour to be compared with; and
    it is 0 when the image is spatially constant. *)
Theorem L_tv_nonneg_and_formula (preds : tensor) (B C H W : nat) :
  shape preds = [B; C; H; W] -> finite preds ->
  (1 <= B)%nat -> (1 <= C)%nat -> (2 <= H)%nat -> (2 <= W)%nat ->
  exists v, L_tv preds = Ok (Some v)
    /\ 0 <= v
    /\ v == TotalVariationLoss B C H W preds
    /\ (spatially_constant preds -> v == 0).
Proof.
  intros Hs F HB HC HH HW.
  eexists. split; [apply (L_tv_finite preds B C H W); assumption | ].
  assert (P1 : 0 < qn (numel [B; C; H; (W - 1)%nat]))
    by (apply qn_pos, numel_pos; repeat constructor; lia).
  assert (P2 : 0 < qn (numel [B; C; (H - 1)%nat; W]))
    by (apply qn_pos, numel_pos; repeat constructor; lia).
  split; [ | split].
  - assert (0 <= qsum_over [B; C; H; (W - 1)%nat] (fun idx =>
              Qabs (val preds idx - val preds (on_nth 3 S idx)))
              / qn (numel [B; C; H; (W - 1)%nat])).
    { apply Qdiv_nonneg; [ | exact P1].
      apply qsum_over_nonneg. intros. apply Qabs_nonneg. }
    assert (0 <= qsum_over [B; C; (H - 1)%nat; W] (fun idx =>
              Qabs (val preds idx - val preds (on_nth 2 S idx)))
              / qn (numel [B; C; (H - 1)%nat; W])).
    { apply Qdiv_nonneg; [ | exact P2].
      apply qsum_over_nonneg. intros. apply Qabs_nonneg. }
    lra.
  - unfold TotalVariationLoss, qsum4, at4.
    replace (B * C * H * (W - 1))%nat
      with (numel [B; C; H; (W - 1)%nat]) by (simpl; lia).
    replace (B * C * (H - 1) * W)%nat
      with (numel [B; C; (H - 1)%nat; W]) by (simpl; lia).
    reflexivity.
  - intros K.
    rewrite (Qdiv_zero (qsum_over [B; C; H; (W - 1)%nat] _)).
    rewrite (Qdiv_zero (qsum_over [B; C; (H - 1)%nat; W] _)).
    + lra.
    + apply qsum_over_zero. intros idx Bd.
      apply in_bounds4 in Bd.
      destruct Bd as (b & c & h & w & -> & Hb & Hc & Hh & Hw).
      cbn [on_nth].
      rewrite (K b c h w (S h) w) by
        (rewrite Hs; simpl; repeat split; lia).
      unfold at4. setoid_replace
        (val preds [b; c; S h; w] - val preds [b; c; S h; w]) with 0
        by ring.
      reflexivity.
    + apply qsum_over_zero. intros idx Bd.
      apply in_bounds4 in Bd.
      destruct Bd as (b & c & h & w & -> & Hb & Hc & Hh & Hw).
      cbn [on_nth].
      rewrite (K b c h w h (S w)) by
        (rewrite Hs; simpl; repeat split; lia).
      unfold at4. setoid_replace
        (val preds [b; c; h; S w] - val preds [b; c; h; S w]) with 0
        by ring.
      reflexivity.
Qed.

(** C4, the case the claim misses: a batch of 1x1 images is spatially
    constant, yet both means of [L_tv] are taken over no element and the
    result is not a number, so neither non-negative nor 0. *)
Lemma L_tv_single_pixel_not_a_number :
  finite (Sample.fill [1; 3; 1; 1]%nat 5)
  /\ spatially_constant (Sample.fill [1; 3; 1; 1]%nat 5)
  /\ L_tv (Sample.fill [1; 3; 1; 1]%nat 5) = Ok None
  /\ ~ (exists v, L_tv (Sample.fill [1; 3; 1; 1]%nat 5) = Ok (Some v)
                  /\ 0 <= v).
Proof.
  assert (E : L_tv (Sample.fill [1; 3; 1; 1]%nat 5) = Ok None)
    by (apply (L_tv_degenerate _ 1 3 1 1); [reflexivity | lia]).
  split; [ | split; [ | split]].
  - intros idx _. discriminate.
  - intros b c h w h' w' _ _. reflexivity.
  - exact E.
  - intros (v & Hv & _). rewrite E in Hv. discriminate.
Qed.

Lemma L_tv_nonneg_and_formula_witness :
  exists v, L_tv (Sample.ramp [1; 2; 3; 3]%nat) = Ok (Some v)
    /\ 0 <= v
    /\ v == TotalVariationLoss 1 2 3 3 (Sample.ramp [1; 2; 3; 3]%nat)
    /\ (spatially_constant (Sample.ramp [1; 2; 3; 3]%nat) -> v == 0).
Proof.
  apply (L_tv_nonneg_and_formula (Sample.ramp [1; 2; 3; 3]%nat) 1 2 3 3).
  - reflexivity.
  - intros idx _. discriminate.
  - lia.
  - lia.
  - lia.
  - lia.
Defined.

(** The ramp image: neighbours differ by 1 along a row and by 3 along
    a column. *)
Example L_tv_ramp :
  exists v, L_tv (Sample.ramp [1; 2; 3; 3]%nat) = Ok (Some v) /\ v == 4.
Proof. eexists. split; [vm_compute; reflexivity | reflexivity]. Qed.

Example L_tv_img :
  exists v, L_tv (tensor4 [[[[1; 2]; [4; 8]]]]) = Ok (Some v) /\ v == 7.
Proof. eexists. split; [vm_compute; reflexivity | reflexivity]. Qed.

(** C6: for every feature map [x] of shape [[b; c; h; w]],
    [gram_matrix x] is a [b x c x c] tensor with
    [G[n, i, j] == G[n, j, i]] for all indices; when [x] is finite and
    [h * w > 0] its entries are the numbers the specification gives:
    the product of the flattened channel-feature matrix with its own
    transpose, divided by [h * w]. *)
Theorem gram_matrix_symmetric (x : tensor) (b c h w : nat) :
  shape x = [b; c; h; w] ->
  exists G, gram_matrix x = Ok G
    /\ shape G = [b; c; c]
    /\ (forall n i j, seqv (get G [n; i; j]) (get G [n; j; i]))
    /\ (finite x -> (h * w)%nat <> 0%nat ->
        forall n i j, (n < b)%nat -> (i < c)%nat -> (j < c)%nat ->
          exists q q', get G [n; i; j] = Some q
                       /\ get G [n; j; i] = Some q'
                       /\ q == q'
                       /\ q == GramMatrix h w x n i j).
Proof.
  intros Hs.
  destruct (gram_matrix_entries x b c h w Hs) as (G & HG & HsG & HE).
  exists G. split; [exact HG | ]. split; [exact HsG | ].
  assert (S : forall n i j, seqv (get G [n; i; j]) (get G [n; j; i])).
  { intros n i j. rewrite !HE.
    apply sdivn_seqv. apply ssum_seqv. intros k _. apply smul_comm. }
  split; [exact S | ].
  intros F Hhw n i j Hn Hi Hj.
  destruct (gram_matrix_finite x b c h w Hs F Hhw)
    as (G' & HG' & _ & _ & V).
  rewrite HG in HG'. injection HG' as <-.
  destruct (V n i j Hn Hi Hj) as (q & Hq & Eq).
  destruct (V n j i Hn Hj Hi) as (q' & Hq' & _).
  exists q, q'. repeat split; try assumption.
  specialize (S n i j). rewrite Hq, Hq' in S. exact S.
Qed.

Lemma gram_matrix_symmetric_witness :
  exists G, gram_matrix Sample.img = Ok G
    /\ shape G = [1; 2; 2]%nat
    /\ (forall n i j, seqv (get G [n; i; j]) (get G [n; j; i]))
    /\ (finite Sample.img -> (2 * 2)%nat <> 0%nat ->
        forall n i j, (n < 1)%nat -> (i < 2)%nat -> (j < 2)%nat ->
          exists q q', get G [n; i; j] = Some q
                       /\ get G [n; j; i] = Some q'
                       /\ q == q'
                       /\ q == GramMatrix 2 2 Sample.img n i j).
Proof.
  apply (gram_matrix_symmetric Sample.img 1 2 2 2). reflexivity.
Defined.

(** The Gram matrix of the sample image: channel 0 is (1, 2, 4, 8),
    channel 1 is (1, 0, 0, 1). *)
Example gram_matrix_img :
  exists G, gram_matrix Sample.img = Ok G
    /\ seqv (get G [0; 0; 0]%nat) (Some (85 # 4))
    /\ seqv (get G [0; 0; 1]%nat) (Some (9 # 4))
    /\ seqv (get G [0; 1; 0]%nat) (Some (9 # 4))
    /\ seqv (get G [0; 1; 1]%nat) (Some (2 # 4)).
Proof. eexists. split; [reflexivity | ]. vm_compute. tauto. Qed.

(** C7: for every finite tensor [x] of feature-map shape (four
    dimensions, none of them empty), [L_feat x x] and [L_style x x] are
    both 0. *)
Theorem loss_with_itself_is_zero (x : tensor) (b c h w : nat) :
  shape x = [b; c; h; w] -> finite x ->
  (1 <= b)%nat -> (1 <= c)%nat -> (1 <= h)%nat -> (1 <= w)%nat ->
  (exists q, L_feat x x = Ok (Some q) /\ q == 0)
  /\ (exists q, L_style x x = Ok (Some q) /\ q == 0).
Proof.
  intros Hs F Hb Hc Hh Hw. split.
  - unfold L_feat. apply mse_loss_self; [exact F | ].
    rewrite Hs. apply numel_pos. repeat constructor; lia.
  - apply (L_style_self x b c h w); assumption.
Qed.

Lemma loss_with_itself_is_zero_witness :
  (exists q, L_feat (Sample.ramp [2; 3; 2; 2]%nat)
                    (Sample.ramp [2; 3; 2; 2]%nat) = Ok (Some q)
             /\ q == 0)
  /\ (exists q, L_style (Sample.ramp [2; 3; 2; 2]%nat)
                        (Sample.ramp [2; 3; 2; 2]%nat) = Ok (Some q)
                /\ q == 0).
Proof.
  apply (loss_with_itself_is_zero (Sample.ramp [2; 3; 2; 2]%nat) 2 3 2 2).
  - reflexivity.
  - intros idx _. discriminate.
  - lia.
  - lia.
  - lia.
  - lia.
Defined.

End LossTheorems.

(* ================================================================== *)
(** * Facts about the loss session *)

(** Case analysis along a call: the two extractor runs, then the loss
    terms. *)
Ltac run_call w x y_hat :=
  unfold extract_and_calculate_loss, ComputeLosses, bind, call_vgg,
    liftR, attr, ret, unpack4;
  cbn [fst snd rbind self calls];
  destruct (vgg (self w) x) as [[| ? [| ? [| ? [| ? [| ? ?]]]]] |];
  cbn [fst snd rbind self calls]; auto;
  destruct (vgg (self w) y_hat) as [[| ? [| ? [| ? [| ? [| ? ?]]]]] |];
  cbn [fst snd rbind self calls]; auto;
  repeat match goal with
    | |- context [match ?r with Ok _ => _ | Raise => _ end] =>
        destruct r; cbn [fst snd rbind self calls]; auto
    end.

Section SessionFacts.

Lemma unpack4_Ok (l : list tensor) (a b c d : tensor) :
  unpack4 l = Ok (a, b, c, d) <-> l = [a; b; c; d].
Proof.
  split.
  - destruct l as [| a' [| b' [| c' [| d' [| ? ?]]]]]; simpl;
      try discriminate.
    intros E. injection E as -> -> -> ->. reflexivity.
  - intros ->. reflexivity.
Qed.

(** The value a call returns is a function of the session's attributes
    and the two images. *)
Lemma extract_value (x y_hat : tensor) (w : world) :
  fst (extract_and_calculate_loss x y_hat w)
  = ComputeLosses (self w) x y_hat.
Proof.
  run_call w x y_hat; reflexivity.
Qed.

Lemma extract_frame (x y_hat : tensor) (w : world) :
  self (snd (extract_and_calculate_loss x y_hat w)) = self w.
Proof.
  run_call w x y_hat; reflexivity.
Qed.

Lemma extract_calls (x y_hat : tensor) (w : world) :
  calls (snd (extract_and_calculate_loss x y_hat w)) = calls w ++ [x]
  \/ calls (snd (extract_and_calculate_loss x y_hat w))
     = calls w ++ [x; y_hat].
Proof.
  run_call w x y_hat; cbn [self calls]; rewrite <- ?app_assoc; auto.
Qed.

Lemma extract_calls_Ok (x y_hat : tensor) (w : world) r :
  fst (extract_and_calculate_loss x y_hat w) = Ok r ->
  calls (snd (extract_and_calculate_loss x y_hat w))
     = calls w ++ [x; y_hat].
Proof.
  run_call w x y_hat; cbn [self calls]; rewrite <- ?app_assoc; auto; discriminate.
Qed.

Lemma init_run (e : extractor) (sty : tensor) (lc ls ltv : Q)
    (log : list tensor) :
  init e sty lc ls ltv log =
  (match e sty with
   | Ok [s1; s2; s3; s4] => Ok (mkLoss_plst e sty lc ls ltv s1 s2 s3 s4)
   | _ => Raise
   end, log ++ [sty]).
Proof.
  unfold init, bind, liftR, ret, unpack4.
  destruct (e sty) as [[| ? [| ? [| ? [| ? [| ? ?]]]]] |]; reflexivity.
Qed.

Lemma steps_cons (x y_hat : tensor) (rest : list (tensor * tensor))
    (w : world) :
  steps ((x, y_hat) :: rest) w =
  match extract_and_calculate_loss x y_hat w with
  | (Ok l, w1) =>
      match steps rest w1 with
      | (Ok ls, w2) => (Ok (l :: ls), w2)
      | (Raise, w2) => (Raise, w2)
      end
  | (Raise, w1) => (Raise, w1)
  end.
Proof. reflexivity. Qed.

Lemma steps_frame (batches : list (tensor * tensor)) (w : world) :
  self (snd (steps batches w)) = self w.
Proof.
  revert w. induction batches as [| [x y_hat] rest IH]; intros w.
  - reflexivity.
  - rewrite steps_cons.
    pose proof (extract_frame x y_hat w) as F.
    destruct (extract_and_calculate_loss x y_hat w) as [[l |] w1];
      simpl in F; [ | exact F].
    specialize (IH w1).
    destruct (steps rest w1) as [[ls |] w2]; simpl in *; congruence.
Qed.

Lemma steps_calls (batches : list (tensor * tensor)) (w : world) ls :
  fst (steps batches w) = Ok ls ->
  calls (snd (steps batches w))
  = calls w ++ flat_map (fun b => [fst b; snd b]) batches
  /\ length ls = length batches.
Proof.
  revert w ls. induction batches as [| [x y_hat] rest IH]; intros w ls.
  - simpl. intros E. injection E as <-. rewrite app_nil_r. auto.
  - rewrite steps_cons.
    pose proof (extract_calls_Ok x y_hat w) as Cl.
    destruct (extract_and_calculate_loss x y_hat w) as [[l |] w1];
      simpl in *; [ | discriminate].
    specialize (IH w1).
    destruct (steps rest w1) as [[ls' |] w2]; simpl in *;
      [ | discriminate].
    intros E. injection E as <-.
    destruct (IH ls' eq_refl) as [IH1 IH2].
    rewrite IH1, (Cl l eq_refl), <- app_assoc. simpl. auto.
Qed.

Lemma ComputeLosses_intro (s : Loss_plst) (x y_hat : tensor)
    (a1 a2 a3 a4 g1 g2 g3 g4 : tensor) (lc l1 l2 l3 l4 tv : scalar) :
  vgg s x = Ok [a1; a2; a3; a4] ->
  vgg s y_hat = Ok [g1; g2; g3; g4] ->
  L_feat g3 a3 = Ok lc ->
  L_style g1 (style_relu1_2 s) = Ok l1 ->
  L_style g2 (style_relu2_2 s) = Ok l2 ->
  L_style g3 (style_relu3_3 s) = Ok l3 ->
  L_style g4 (style_relu4_3 s) = Ok l4 ->
  L_tv y_hat = Ok tv ->
  ComputeLosses s x y_hat
  = Ok (smul (Some (lambda_c s)) lc,
        smul (Some (lambda_s s)) (sadd (sadd (sadd l1 l2) l3) l4),
        smul (Some (lambda_tv s)) tv).
Proof.
  intros Hx Hy Hc H1 H2 H3 H4 Htv. unfold ComputeLosses.
  rewrite Hx, Hy. cbn [rbind unpack4].
  rewrite Hc, H1, H2, H3, H4, Htv. reflexivity.
Qed.

Lemma ComputeLosses_inv (s : Loss_plst) (x y_hat : tensor)
    (r : scalar * scalar * scalar) :
  ComputeLosses s x y_hat = Ok r ->
  exists a1 a2 a3 a4 g1 g2 g3 g4 lc l1 l2 l3 l4 tv,
    vgg s x = Ok [a1; a2; a3; a4]
    /\ vgg s y_hat = Ok [g1; g2; g3; g4]
    /\ L_feat g3 a3 = Ok lc
    /\ L_style g1 (style_relu1_2 s) = Ok l1
    /\ L_style g2 (style_relu2_2 s) = Ok l2
    /\ L_style g3 (style_relu3_3 s) = Ok l3
    /\ L_style g4 (style_relu4_3 s) = Ok l4
    /\ L_tv y_hat = Ok tv
    /\ r = (smul (Some (lambda_c s)) lc,
            smul (Some (lambda_s s)) (sadd (sadd (sadd l1 l2) l3) l4),
            smul (Some (lambda_tv s)) tv).
Proof.
  unfold ComputeLosses.
  destruct (vgg s x) as [[| a1 [| a2 [| a3 [| a4 [| ? ?]]]]] |];
    cbn [rbind unpack4]; try discriminate.
  destruct (vgg s y_hat) as [[| g1 [| g2 [| g3 [| g4 [| ? ?]]]]] |];
    cbn [rbind unpack4]; try discriminate.
  destruct (L_feat g3 a3) as [lc |] eqn:Hc;
    cbn [rbind]; try discriminate.
  destruct (L_style g1 _) as [l1 |] eqn:H1;
    cbn [rbind]; try discriminate.
  destruct (L_style g2 _) as [l2 |] eqn:H2;
    cbn [rbind]; try discriminate.
  destruct (L_style g3 _) as [l3 |] eqn:H3;
    cbn [rbind]; try discriminate.
  destruct (L_style g4 _) as [l4 |] eqn:H4;
    cbn [rbind]; try discriminate.
  destruct (L_tv y_hat) as [tv |] eqn:Htv;
    cbn [rbind]; try discriminate.
  intros E. injection E as <-.
  exists a1, a2, a3, a4, g1, g2, g3, g4, lc, l1, l2, l3, l4, tv.
  repeat split; assumption.
Qed.

(** A batch of [b] samples against a single cached sample: the Gram
    matrices broadcast along the batch dimension. *)
Lemma style_term_broadcast (f s : tensor) (b c h w h' w' : nat) :
  shape f = [b; c; h; w] -> shape s = [1; c; h'; w'] ->
  exists l, L_style f s = Ok l /\ style_term f s l.
Proof.
  intros Hf Hs.
  destruct (gram_matrix_entries f b c h w Hf) as (Gf & HGf & SGf & _).
  destruct (gram_matrix_entries s 1 c h' w' Hs) as (Gs & HGs & SGs & _).
  assert (B : broadcast_shapes [b; c; c] [1; c; c] = Some [b; c; c]).
  { unfold broadcast_shapes. simpl. rewrite !bdim_refl.
    unfold bdim. destruct (b =? 1) eqn:E; [ | reflexivity].
    apply Nat.eqb_eq in E. subst b. reflexivity. }
  unfold L_style, style_term. rewrite HGf, HGs. cbn [rbind].
  unfold mse_loss. rewrite SGf, SGs, B.
  eexists. split; [reflexivity | ].
  exists Gf, Gs. repeat split; try reflexivity.
  unfold mse_loss. rewrite SGf, SGs, B. reflexivity.
Qed.

Lemma Vgg16_shapes_64 (n : nat) :
  Vgg16_shapes [n; 3; 64; 64]
  = Ok [[n; 64; 64; 64]; [n; 128; 32; 32]; [n; 256; 16; 16];
        [n; 512; 8; 8]].
Proof. vm_compute. reflexivity. Qed.

Lemma extracts_like_Vgg16_64 (e : extractor) (x : tensor) (n : nat) :
  shape x = [n; 3; 64; 64] -> extracts_like_Vgg16 e x ->
  exists f1 f2 f3 f4,
    e x = Ok [f1; f2; f3; f4]
    /\ shape f1 = [n; 64; 64; 64] /\ shape f2 = [n; 128; 32; 32]
    /\ shape f3 = [n; 256; 16; 16] /\ shape f4 = [n; 512; 8; 8]
    /\ finite f3.
Proof.
  intros Hx (fs & He & Hsh & Hfin).
  rewrite Hx, Vgg16_shapes_64 in Hsh. injection Hsh as Hsh.
  destruct fs as [| f1 [| f2 [| f3 [| f4 [| ? ?]]]]]; try discriminate.
  injection Hsh as S1 S2 S3 S4.
  exists f1, f2, f3, f4. repeat split; try congruence.
  inversion Hfin as [| ? ? _ H1]. inversion H1 as [| ? ? _ H2].
  inversion H2 as [| ? ? F3 _]. exact F3.
Qed.
End SessionFacts.

(* ================================================================== *)
(** * The loss session: what a call returns and what it leaves alone *)

Section SessionTheorems.

(** C1: the triple returned by [extract_and_calculate_loss x y_hat] is
    the one the specification describes.  With [a1..a4] the stages of
    [x] and [g1..g4] the stages of [y_hat], it is
    ([lambda_c * L_feat g3 a3],
     [lambda_s * (L_style g1 s1 + L_style g2 s2 + L_style g3 s3
                  + L_style g4 s4)] on the cached style stages,
     [lambda_tv * L_tv y_hat]), three separate scalars; the content
    loss reads the third stage of both images and nothing else; and
    every returned triple has this form. *)
Theorem extract_and_calculate_loss_triple (w : world) (x y_hat : tensor) :
  fst (extract_and_calculate_loss x y_hat w)
  = ComputeLosses (self w) x y_hat
  /\ (forall a1 a2 a3 a4 g1 g2 g3 g4 lc l1 l2 l3 l4 tv,
        vgg (self w) x = Ok [a1; a2; a3; a4] ->
        vgg (self w) y_hat = Ok [g1; g2; g3; g4] ->
        L_feat g3 a3 = Ok lc ->
        L_style g1 (style_relu1_2 (self w)) = Ok l1 ->
        L_style g2 (style_relu2_2 (self w)) = Ok l2 ->
        L_style g3 (style_relu3_3 (self w)) = Ok l3 ->
        L_style g4 (style_relu4_3 (self w)) = Ok l4 ->
        L_tv y_hat = Ok tv ->
        fst (extract_and_calculate_loss x y_hat w)
        = Ok (smul (Some (lambda_c (self w))) lc,
              smul (Some (lambda_s (self w)))
                   (sadd (sadd (sadd l1 l2) l3) l4),
              smul (Some (lambda_tv (self w))) tv))
  /\ (forall r,
        fst (extract_and_calculate_loss x y_hat w) = Ok r ->
        exists a1 a2 a3 a4 g1 g2 g3 g4 lc l1 l2 l3 l4 tv,
          vgg (self w) x = Ok [a1; a2; a3; a4]
          /\ vgg (self w) y_hat = Ok [g1; g2; g3; g4]
          /\ L_feat g3 a3 = Ok lc
          /\ L_style g1 (style_relu1_2 (self w)) = Ok l1
          /\ L_style g2 (style_relu2_2 (self w)) = Ok l2
          /\ L_style g3 (style_relu3_3 (self w)) = Ok l3
          /\ L_style g4 (style_relu4_3 (self w)) = Ok l4
          /\ L_tv y_hat = Ok tv
          /\ r = (smul (Some (lambda_c (self w))) lc,
                  smul (Some (lambda_s (self w)))
                       (sadd (sadd (sadd l1 l2) l3) l4),
                  smul (Some (lambda_tv (self w))) tv)).
Proof.
  split; [apply extract_value | ]. split.
  - intros. rewrite extract_value.
    apply (ComputeLosses_intro _ _ _ a1 a2 a3 a4 g1 g2 g3 g4); assumption.
  - intros r. rewrite extract_value. apply ComputeLosses_inv.
Qed.

(** C8: the session runs the extractor on the style image exactly once,
    in the constructor, which stores the four results; a call of
    [extract_and_calculate_loss] runs the extractor on [x] and on
    [y_hat] only and leaves every attribute of the session as it was,
    whether it returns or raises; so does any sequence of calls. *)
Theorem session_is_read_only :
  (forall e sty lc ls ltv log,
      snd (init e sty lc ls ltv log) = log ++ [sty])
  /\ (forall e sty lc ls ltv log s log',
        init e sty lc ls ltv log = (Ok s, log') ->
        vgg s = e /\ style_img s = sty
        /\ lambda_c s = lc /\ lambda_s s = ls /\ lambda_tv s = ltv
        /\ e sty = Ok [style_relu1_2 s; style_relu2_2 s;
                       style_relu3_3 s; style_relu4_3 s])
  /\ (forall x y_hat w,
        self (snd (extract_and_calculate_loss x y_hat w)) = self w
        /\ (calls (snd (extract_and_calculate_loss x y_hat w))
              = calls w ++ [x]
            \/ calls (snd (extract_and_calculate_loss x y_hat w))
              = calls w ++ [x; y_hat]))
  /\ (forall batches w, self (snd (steps batches w)) = self w)
  /\ (forall e sty lc ls ltv log s log' batches ls',
        init e sty lc ls ltv log = (Ok s, log') ->
        fst (steps batches (mkWorld s log')) = Ok ls' ->
        self (snd (steps batches (mkWorld s log'))) = s
        /\ calls (snd (steps batches (mkWorld s log')))
           = log ++ sty :: flat_map (fun b => [fst b; snd b]) batches).
Proof.
  split; [ | split; [ | split; [ | split]]].
  - intros. rewrite init_run. reflexivity.
  - intros e sty lc ls ltv log s log'. rewrite init_run.
    destruct (e sty) as [[| s1 [| s2 [| s3 [| s4 [| ? ?]]]]] |];
      try discriminate.
    intros E. injection E as <- _. simpl. repeat split; reflexivity.
  - intros x y_hat w. split; [apply extract_frame | apply extract_calls].
  - apply steps_frame.
  - intros e sty lc ls ltv log s log' batches ls' I R.
    split; [apply (steps_frame batches (mkWorld s log')) | ].
    destruct (steps_calls batches _ ls' R) as [C _].
    rewrite C. simpl.
    rewrite init_run in I. injection I as _ <-.
    rewrite <- app_assoc. reflexivity.
Qed.

(** C10: two sessions built with the same extractor and the same weights
    but different style images return, for the same [(x, y_hat)], the
    same content loss and the same total variation loss; only the style
    loss can differ. *)
Theorem content_and_tv_ignore_style (e : extractor) (lc ls ltv : Q)
    (style1 style2 : tensor) (log1 log2 log1' log2' : list tensor)
    (s1 s2 : Loss_plst) :
  init e style1 lc ls ltv log1 = (Ok s1, log1') ->
  init e style2 lc ls ltv log2 = (Ok s2, log2') ->
  forall (x y_hat : tensor) (calls1 calls2 : list tensor)
         (c1 st1 tv1 c2 st2 tv2 : scalar),
    fst (extract_and_calculate_loss x y_hat (mkWorld s1 calls1))
      = Ok (c1, st1, tv1) ->
    fst (extract_and_calculate_loss x y_hat (mkWorld s2 calls2))
      = Ok (c2, st2, tv2) ->
    c1 = c2 /\ tv1 = tv2.
Proof.
  intros I1 I2 x y_hat calls1 calls2 c1 st1 tv1 c2 st2 tv2 R1 R2.
  rewrite init_run in I1, I2.
  destruct (e style1) as [[| p1 [| p2 [| p3 [| p4 [| ? ?]]]]] |];
    try discriminate.
  destruct (e style2) as [[| q1 [| q2 [| q3 [| q4 [| ? ?]]]]] |];
    try discriminate.
  injection I1 as <- _. injection I2 as <- _.
  rewrite extract_value in R1, R2.
  destruct (ComputeLosses_inv _ _ _ _ R1)
    as (a1 & a2 & a3 & a4 & g1 & g2 & g3 & g4 & u & l1 & l2 & l3 & l4
        & tv & Hx & Hy & Hc & _ & _ & _ & _ & Htv & E1).
  destruct (ComputeLosses_inv _ _ _ _ R2)
    as (a1' & a2' & a3' & a4' & g1' & g2' & g3' & g4' & u' & l1' & l2'
        & l3' & l4' & tv' & Hx' & Hy' & Hc' & _ & _ & _ & _ & Htv' & E2).
  cbn [self vgg lambda_c lambda_tv] in *.
  rewrite Hx in Hx'. rewrite Hy in Hy'.
  injection Hx' as <- <- <- <-. injection Hy' as <- <- <- <-.
  rewrite Hc in Hc'. injection Hc' as <-.
  rewrite Htv in Htv'. injection Htv' as <-.
  injection E1 as -> _ ->. injection E2 as -> _ ->. auto.
Qed.

Lemma content_and_tv_ignore_style_witness :
  exists s1 s2 c1 st1 tv1 c2 st2 tv2,
    init Sample.toy_vgg Sample.img 1 2 3 [] = (Ok s1, [Sample.img])
    /\ init Sample.toy_vgg Sample.flat 1 2 3 [] = (Ok s2, [Sample.flat])
    /\ fst (extract_and_calculate_loss Sample.img Sample.img'
              (mkWorld s1 [Sample.img])) = Ok (c1, st1, tv1)
    /\ fst (extract_and_calculate_loss Sample.img Sample.img'
              (mkWorld s2 [Sample.flat])) = Ok (c2, st2, tv2)
    /\ c1 = c2 /\ tv1 = tv2.
Proof.
  do 8 eexists.
  split; [reflexivity | ]. split; [reflexivity | ].
  split; [reflexivity | ]. split; [reflexivity | ].
  apply (content_and_tv_ignore_style Sample.toy_vgg 1 2 3
           Sample.img Sample.flat [] [] [Sample.img] [Sample.flat]
           _ _ eq_refl eq_refl
           Sample.img Sample.img' [Sample.img] [Sample.flat]
           _ _ _ _ _ _ eq_refl eq_refl).
Defined.

(** The same call on the two sample sessions: content and total
    variation agree, the style losses are 94129/128 and 1810109/512. *)
Example sample_losses :
  exists s1 s2 c st1 st2 tv,
    fst (init Sample.toy_vgg Sample.img 1 2 3 []) = Ok s1
    /\ fst (init Sample.toy_vgg Sample.flat 1 2 3 []) = Ok s2
    /\ fst (extract_and_calculate_loss Sample.img Sample.img'
              (mkWorld s1 [])) = Ok (c, st1, tv)
    /\ fst (extract_and_calculate_loss Sample.img Sample.img'
              (mkWorld s2 [])) = Ok (c, st2, tv)
    /\ seqv c (Some (25 # 8)) /\ seqv tv (Some (27 # 2))
    /\ seqv st1 (Some (94129 # 128)) /\ seqv st2 (Some (1810109 # 512)).
Proof.
  do 6 eexists.
  split; [reflexivity | ]. split; [reflexivity | ].
  split; [reflexivity | ]. split; [reflexivity | ].
  vm_compute. tauto.
Qed.

(** C3: a content batch of shape (2, 3, 64, 64), a style image of shape
    (1, 3, 64, 64) and an extractor that returns finite feature maps of
    the shapes of [Vgg16].  The session is built with the default
    weights and called with the content batch as both arguments: the
    call returns, its content loss is exactly 0, and its style loss is
    the sum over the four stages of the mean squared difference between
    the Gram matrix of the content stage and the Gram matrix of the
    cached style stage. *)
Theorem identity_scenario (e : extractor) (content style : tensor)
    (log : list tensor) :
  shape content = [2; 3; 64; 64] -> shape style = [1; 3; 64; 64] ->
  extracts_like_Vgg16 e content -> extracts_like_Vgg16 e style ->
  exists s log' f1 f2 f3 f4 c st tv l1 l2 l3 l4,
    init_default e style log = (Ok s, log')
    /\ e content = Ok [f1; f2; f3; f4]
    /\ fst (extract_and_calculate_loss content content (mkWorld s log'))
       = Ok (c, st, tv)
    /\ seqv c (Some 0%Q)
    /\ style_term f1 (style_relu1_2 s) l1
    /\ style_term f2 (style_relu2_2 s) l2
    /\ style_term f3 (style_relu3_3 s) l3
    /\ style_term f4 (style_relu4_3 s) l4
    /\ seqv st (sadd (sadd (sadd l1 l2) l3) l4).
Proof.
  intros Hc Hs Ec Es.
  destruct (extracts_like_Vgg16_64 e content 2 Hc Ec)
    as (f1 & f2 & f3 & f4 & Hf & S1 & S2 & S3 & S4 & F3).
  destruct (extracts_like_Vgg16_64 e style 1 Hs Es)
    as (p1 & p2 & p3 & p4 & Hp & T1 & T2 & T3 & T4 & _).
  destruct (style_term_broadcast f1 p1 _ _ _ _ _ _ S1 T1) as (l1 & L1 & G1).
  destruct (style_term_broadcast f2 p2 _ _ _ _ _ _ S2 T2) as (l2 & L2 & G2).
  destruct (style_term_broadcast f3 p3 _ _ _ _ _ _ S3 T3) as (l3 & L3 & G3).
  destruct (style_term_broadcast f4 p4 _ _ _ _ _ _ S4 T4) as (l4 & L4 & G4).
  destruct (mse_loss_self f3 F3) as (q & Hq & Zq).
  { rewrite S3. apply numel_pos. repeat constructor; lia. }
  destruct (L_tv_returns content _ _ _ _ Hc) as (tv & Htv).
  exists (mkLoss_plst e style 1 1 1 p1 p2 p3 p4), (log ++ [style]),
    f1, f2, f3, f4.
  exists (smul (Some 1%Q) (Some q)),
    (smul (Some 1%Q) (sadd (sadd (sadd l1 l2) l3) l4)),
    (smul (Some 1%Q) tv), l1, l2, l3, l4.
  split; [unfold init_default; rewrite init_run, Hp; reflexivity | ].
  split; [exact Hf | ].
  split.
  { rewrite extract_value. cbn [self].
    apply (ComputeLosses_intro (mkLoss_plst e style 1 1 1 p1 p2 p3 p4)
             content content f1 f2 f3 f4 f1 f2 f3 f4
             (Some q) l1 l2 l3 l4 tv); assumption. }
  split; [simpl; rewrite Zq; reflexivity | ].
  repeat (split; [assumption | ]).
  destruct (sadd (sadd (sadd l1 l2) l3) l4); simpl; [ring | exact I].
Qed.

Lemma shaped_vgg_like_Vgg16 (x : tensor) (ss : list dims) :
  Vgg16_shapes (shape x) = Ok ss ->
  extracts_like_Vgg16 Sample.shaped_vgg x.
Proof.
  intros H. unfold extracts_like_Vgg16, Sample.shaped_vgg. rewrite H.
  eexists. split; [reflexivity | ]. split.
  - rewrite map_map. simpl. rewrite map_id. reflexivity.
  - apply Forall_map, Forall_forall. intros s _ idx _. discriminate.
Qed.

Lemma identity_scenario_witness :
  exists s log' f1 f2 f3 f4 c st tv l1 l2 l3 l4,
    init_default Sample.shaped_vgg (Sample.ramp [1; 3; 64; 64]) []
      = (Ok s, log')
    /\ Sample.shaped_vgg (Sample.ramp [2; 3; 64; 64])
       = Ok [f1; f2; f3; f4]
    /\ fst (extract_and_calculate_loss (Sample.ramp [2; 3; 64; 64])
              (Sample.ramp [2; 3; 64; 64]) (mkWorld s log'))
       = Ok (c, st, tv)
    /\ seqv c (Some 0%Q)
    /\ style_term f1 (style_relu1_2 s) l1
    /\ style_term f2 (style_relu2_2 s) l2
    /\ style_term f3 (style_relu3_3 s) l3
    /\ style_term f4 (style_relu4_3 s) l4
    /\ seqv st (sadd (sadd (sadd l1 l2) l3) l4).
Proof.
  apply (identity_scenario Sample.shaped_vgg
           (Sample.ramp [2; 3; 64; 64]) (Sample.ramp [1; 3; 64; 64]) []).
  - reflexivity.
  - reflexivity.
  - exact (shaped_vgg_like_Vgg16 (Sample.ramp [2; 3; 64; 64]) _
             (Vgg16_shapes_64 2)).
  - exact (shaped_vgg_like_Vgg16 (Sample.ramp [1; 3; 64; 64]) _
             (Vgg16_shapes_64 1)).
Defined.

End SessionTheorems.

(* ================================================================== *)
(** * Facts about the shapes of the networks *)

(** Division and remainder by a constant, for [lia]. *)
Ltac Zify.zify_post_hook ::= Z.div_mod_to_equations.

Lemma dims4_eq (a b c d c' d' : nat) :
  c = c' -> d = d' -> @Ok dims [a; b; c; d] = Ok [a; b; c'; d'].
Proof. intros -> ->. reflexivity. Qed.

(** Decide the comparisons a layer makes, then finish by arithmetic. *)
Ltac layer_cases :=
  repeat match goal with
    | |- context [?a <? ?b] => destruct (Nat.ltb_spec a b)
    | |- context [?a <=? ?b] => destruct (Nat.leb_spec a b)
    | |- context [?a =? ?b] => destruct (Nat.eqb_spec a b)
    end;
  cbn [negb andb orb]; try reflexivity; try lia;
  try (apply dims4_eq; lia).

Section ShapeFacts.

(** A 3x3 convolution of stride 1 and zero padding 1. *)
Lemma Conv2d_3x3_zeros (cin cout n h w : nat) :
  Conv2d_forward (mkConv2d cin cout 3 1 1 pad_zeros) [n; cin; h; w]
  = if (1 <=? h) && (1 <=? w) then Ok [n; cout; h; w] else Raise.
Proof.
  unfold Conv2d_forward, window_out, pad_ok.
  cbn [in_channels out_channels kernel_size stride padding padding_mode].
  rewrite Nat.eqb_refl. cbn [negb andb].
  layer_cases.
Qed.

(** A convolution of stride 1 whose reflection padding [p] makes up for
    its kernel [2p + 1]. *)
Lemma Conv2d_same_reflect (cin cout p n h w : nat) :
  Conv2d_forward (mkConv2d cin cout (2 * p + 1) 1 p pad_reflect) [n; cin; h; w]
  = if (p <? h) && (p <? w) then Ok [n; cout; h; w] else Raise.
Proof.
  unfold Conv2d_forward, window_out, pad_ok.
  cbn [in_channels out_channels kernel_size stride padding padding_mode].
  rewrite Nat.eqb_refl. cbn [negb andb].
  layer_cases.
Qed.

(** A 3x3 convolution of stride 2 and reflection padding 1 halves each
    dimension, rounding up. *)
Lemma Conv2d_stride2 (cin cout n h w : nat) :
  Conv2d_forward (mkConv2d cin cout 3 2 1 pad_reflect) [n; cin; h; w]
  = if (2 <=? h) && (2 <=? w)
    then Ok [n; cout; (h + 1) / 2; (w + 1) / 2] else Raise.
Proof.
  unfold Conv2d_forward, window_out, pad_ok.
  cbn [in_channels out_channels kernel_size stride padding padding_mode].
  rewrite Nat.eqb_refl. cbn [negb andb].
  layer_cases.
Qed.

Lemma MaxPool2d_2x2 (n c h w : nat) :
  MaxPool2d_forward 2 2 [n; c; h; w]
  = if (2 <=? h) && (2 <=? w) then Ok [n; c; h / 2; w / 2] else Raise.
Proof.
  unfold MaxPool2d_forward, window_out.
  layer_cases.
Qed.

Lemma InstanceNorm2d_plain (f n c h w : nat) :
  2 <= h -> 2 <= w ->
  InstanceNorm2d_forward (mkInstanceNorm2d f false) [n; c; h; w]
  = Ok [n; c; h; w].
Proof.
  intros Hh Hw. unfold InstanceNorm2d_forward. cbn [affine andb].
  destruct (Nat.eqb_spec (h * w) 1) as [E | _]; [nia | reflexivity].
Qed.

Lemma InstanceNorm2d_affine (n c h w : nat) :
  1 <= n -> 1 <= c -> 2 <= h -> 2 <= w ->
  InstanceNorm2d_forward (mkInstanceNorm2d c true) [n; c; h; w]
  = Ok [n; c; h; w].
Proof.
  intros Hn Hc Hh Hw. unfold InstanceNorm2d_forward.
  cbn [affine num_features andb].
  destruct (Nat.eqb_spec (h * w) 1) as [E | _]; [nia | ].
  rewrite Nat.eqb_refl.
  destruct (Nat.eqb_spec (n * c) 0) as [E | _]; [nia | reflexivity].
Qed.

(** An affine normalisation raises on an empty batch. *)
Lemma InstanceNorm2d_affine_empty (f c h w : nat) :
  InstanceNorm2d_forward (mkInstanceNorm2d f true) [0; c; h; w] = Raise.
Proof.
  unfold InstanceNorm2d_forward. cbn [affine andb Nat.mul Nat.eqb orb].
  destruct (h * w =? 1); reflexivity.
Qed.

Lemma ResidualBlock_shape (c n h w : nat) :
  2 <= h -> 2 <= w ->
  ResidualBlock_forward (ResidualBlock_init c) [n; c; h; w]
  = Ok [n; c; h; w].
Proof.
  intros Hh Hw.
  unfold ResidualBlock_forward, ResidualBlock_init.
  cbn [rb_conv_1 rb_in_1 rb_conv_2 rb_in_2].
  rewrite (Conv2d_same_reflect c c 1).
  replace ((1 <? h) && (1 <? w)) with true by layer_cases.
  cbn [rbind]. rewrite InstanceNorm2d_plain by assumption.
  cbn [rbind ReLU_forward].
  rewrite (Conv2d_same_reflect c c 1).
  replace ((1 <? h) && (1 <? w)) with true by layer_cases.
  cbn [rbind]. rewrite InstanceNorm2d_plain by assumption.
  cbn [rbind].
  unfold add_forward. rewrite broadcast_shapes_refl. reflexivity.
Qed.

Lemma UpsampleConvLayer_shape (cin cout n h w : nat) :
  1 <= h -> 1 <= w ->
  UpsampleConvLayer_forward
    (UpsampleConvLayer_init cin cout 3 1 (Some 2)) [n; cin; h; w]
  = Ok [n; cout; h * 2; w * 2].
Proof.
  intros Hh Hw.
  unfold UpsampleConvLayer_forward, UpsampleConvLayer_init.
  cbn [upsample conv2d Upsample_forward rbind].
  change (3 / 2) with 1.
  rewrite (Conv2d_same_reflect cin cout 1).
  replace ((1 <? h * 2) && (1 <? w * 2)) with true by layer_cases.
  reflexivity.
Qed.

(** The shape [StyleTransferNet] returns, and the inputs it rejects. *)
Lemma StyleTransferNet_shape_eq (N H W : nat) :
  StyleTransferNet_shape [N; 3; H; W]
  = if (1 <=? N) && (5 <=? H) && (5 <=? W)
    then Ok [N; 3; 4 * ceil4 H; 4 * ceil4 W] else Raise.
Proof.
  unfold StyleTransferNet_shape, StyleTransferNet_forward,
    StyleTransferNet_init.
  cbn [conv_1 in_1 conv_2 in_2 conv_3 in_3 res_1 res_2 res_3 res_4 res_5
       up_1 in_4 up_2 in_5 conv_f in_out].
  rewrite (Conv2d_same_reflect 3 32 4).
  destruct (Nat.leb_spec 1 N) as [HN | HN];
    destruct (Nat.leb_spec 5 H) as [HH | HH];
    destruct (Nat.leb_spec 5 W) as [HW | HW]; cbn [andb];
    try (replace ((4 <? H) && (4 <? W)) with false by layer_cases;
         reflexivity).
  2: { replace ((4 <? H) && (4 <? W)) with true by layer_cases.
       replace N with 0 by lia. cbn [rbind].
       rewrite InstanceNorm2d_affine_empty. reflexivity. }
  replace ((4 <? H) && (4 <? W)) with true by layer_cases.
  cbn [rbind]. rewrite InstanceNorm2d_affine by lia.
  cbn [rbind ReLU_forward].
  rewrite Conv2d_stride2.
  replace ((2 <=? H) && (2 <=? W)) with true by layer_cases.
  cbn [rbind]. rewrite InstanceNorm2d_affine by lia.
  cbn [rbind ReLU_forward].
  rewrite Conv2d_stride2.
  replace ((2 <=? (H + 1) / 2) && (2 <=? (W + 1) / 2)) with true
    by layer_cases.
  cbn [rbind]. rewrite InstanceNorm2d_affine by lia.
  cbn [rbind ReLU_forward].
  do 5 (rewrite ResidualBlock_shape by lia; cbn [rbind]).
  rewrite UpsampleConvLayer_shape by lia.
  cbn [rbind]. rewrite InstanceNorm2d_affine by lia.
  cbn [rbind ReLU_forward].
  rewrite UpsampleConvLayer_shape by lia.
  cbn [rbind]. rewrite InstanceNorm2d_affine by lia.
  cbn [rbind ReLU_forward].
  rewrite (Conv2d_same_reflect 32 3 4).
  replace ((4 <? ((H + 1) / 2 + 1) / 2 * 2 * 2)
           && (4 <? ((W + 1) / 2 + 1) / 2 * 2 * 2)) with true
    by layer_cases.
  cbn [rbind]. rewrite InstanceNorm2d_affine by lia.
  unfold ceil4. apply dims4_eq; lia.
Qed.


(** The four slices [Vgg16.__init__] cuts out of the backbone: up to
    relu1_2, relu2_2, relu3_3 and relu4_3. *)
Lemma Vgg16_slices :
  slice1 Vgg16_init
  = [LConv (mkConv2d 3 64 3 1 1 pad_zeros); LReLU;
     LConv (mkConv2d 64 64 3 1 1 pad_zeros); LReLU]
  /\ slice2 Vgg16_init
  = [LMaxPool 2 2;
     LConv (mkConv2d 64 128 3 1 1 pad_zeros); LReLU;
     LConv (mkConv2d 128 128 3 1 1 pad_zeros); LReLU]
  /\ slice3 Vgg16_init
  = [LMaxPool 2 2;
     LConv (mkConv2d 128 256 3 1 1 pad_zeros); LReLU;
     LConv (mkConv2d 256 256 3 1 1 pad_zeros); LReLU;
     LConv (mkConv2d 256 256 3 1 1 pad_zeros); LReLU]
  /\ slice4 Vgg16_init
  = [LMaxPool 2 2;
     LConv (mkConv2d 256 512 3 1 1 pad_zeros); LReLU;
     LConv (mkConv2d 512 512 3 1 1 pad_zeros); LReLU;
     LConv (mkConv2d 512 512 3 1 1 pad_zeros); LReLU].
Proof. repeat split; reflexivity. Qed.

Ltac conv_step :=
  rewrite Conv2d_3x3_zeros;
  match goal with
  | |- context [(1 <=? ?h) && (1 <=? ?w)] =>
      replace ((1 <=? h) && (1 <=? w)) with true by layer_cases
  end;
  cbn [rbind ReLU_forward].

Lemma Vgg16_slice1_shape (N H W : nat) :
  Sequential_forward (slice1 Vgg16_init) [N; 3; H; W]
  = if (1 <=? H) && (1 <=? W) then Ok [N; 64; H; W] else Raise.
Proof.
  destruct Vgg16_slices as (-> & _).
  cbn [Sequential_forward layer_forward].
  rewrite Conv2d_3x3_zeros.
  destruct (Nat.leb_spec 1 H); destruct (Nat.leb_spec 1 W);
    cbn [andb rbind ReLU_forward]; try reflexivity.
  conv_step. reflexivity.
Qed.

Lemma Vgg16_slice2_shape (N H W : nat) :
  Sequential_forward (slice2 Vgg16_init) [N; 64; H; W]
  = if (2 <=? H) && (2 <=? W) then Ok [N; 128; H / 2; W / 2] else Raise.
Proof.
  destruct Vgg16_slices as (_ & -> & _).
  cbn [Sequential_forward layer_forward].
  rewrite MaxPool2d_2x2.
  destruct (Nat.leb_spec 2 H); destruct (Nat.leb_spec 2 W);
    cbn [andb rbind ReLU_forward]; try reflexivity.
  do 2 conv_step. reflexivity.
Qed.

Lemma Vgg16_slice3_shape (N H W : nat) :
  Sequential_forward (slice3 Vgg16_init) [N; 128; H; W]
  = if (2 <=? H) && (2 <=? W) then Ok [N; 256; H / 2; W / 2] else Raise.
Proof.
  destruct Vgg16_slices as (_ & _ & -> & _).
  cbn [Sequential_forward layer_forward].
  rewrite MaxPool2d_2x2.
  destruct (Nat.leb_spec 2 H); destruct (Nat.leb_spec 2 W);
    cbn [andb rbind ReLU_forward]; try reflexivity.
  do 3 conv_step. reflexivity.
Qed.

Lemma Vgg16_slice4_shape (N H W : nat) :
  Sequential_forward (slice4 Vgg16_init) [N; 256; H; W]
  = if (2 <=? H) && (2 <=? W) then Ok [N; 512; H / 2; W / 2] else Raise.
Proof.
  destruct Vgg16_slices as (_ & _ & _ & ->).
  cbn [Sequential_forward layer_forward].
  rewrite MaxPool2d_2x2.
  destruct (Nat.leb_spec 2 H); destruct (Nat.leb_spec 2 W);
    cbn [andb rbind ReLU_forward]; try reflexivity.
  do 3 conv_step. reflexivity.
Qed.

(** The shapes [Vgg16.forward] returns, and the inputs it rejects. *)
Lemma Vgg16_shapes_eq (N H W : nat) :
  Vgg16_shapes [N; 3; H; W]
  = if (8 <=? H) && (8 <=? W)
    then Ok [[N; 64; H; W]; [N; 128; H / 2; W / 2];
             [N; 256; H / 4; W / 4]; [N; 512; H / 8; W / 8]]
    else Raise.
Proof.
  unfold Vgg16_shapes, Vgg16_forward.
  rewrite Vgg16_slice1_shape.
  destruct (Nat.leb_spec 1 H); destruct (Nat.leb_spec 1 W);
    cbn [andb rbind];
    try (replace ((8 <=? H) && (8 <=? W)) with false by layer_cases;
         reflexivity).
  rewrite Vgg16_slice2_shape.
  destruct (Nat.leb_spec 2 H); destruct (Nat.leb_spec 2 W);
    cbn [andb rbind];
    try (replace ((8 <=? H) && (8 <=? W)) with false by layer_cases;
         reflexivity).
  rewrite Vgg16_slice3_shape.
  destruct (Nat.leb_spec 2 (H / 2)); destruct (Nat.leb_spec 2 (W / 2));
    cbn [andb rbind];
    try (replace ((8 <=? H) && (8 <=? W)) with false by layer_cases;
         reflexivity).
  rewrite Vgg16_slice4_shape.
  destruct (Nat.leb_spec 2 (H / 2 / 2));
    destruct (Nat.leb_spec 2 (W / 2 / 2));
    cbn [andb rbind];
    try (replace ((8 <=? H) && (8 <=? W)) with false by layer_cases;
         reflexivity).
  replace ((8 <=? H) && (8 <=? W)) with true by layer_cases.
  replace (H / 2 / 2 / 2) with (H / 8) by lia.
  replace (W / 2 / 2 / 2) with (W / 8) by lia.
  replace (H / 2 / 2) with (H / 4) by lia.
  replace (W / 2 / 2) with (W / 4) by lia.
  reflexivity.
Qed.

End ShapeFacts.

(* ================================================================== *)
(** * The networks: output shapes *)

Section ShapeTheorems.

(** C9: on a batch of shape (N, 3, H, W) the output of
    [StyleTransferNet] has spatial size (4 * ceil(H/4), 4 * ceil(W/4)):
    each of the two stride-2 convolutions maps a dimension d to
    ceil(d/2), each of the two upsampling layers doubles it, and the
    output shape is the input shape exactly when 4 divides both H and W.
    The network has an output when the batch is not empty and H and W
    are at least 5; below that the reflection padding of its first
    convolution raises, and on an empty batch its first normalisation
    does. *)
Theorem StyleTransferNet_output_size (N H W : nat) :
  StyleTransferNet_shape [N; 3; H; W]
  = (if (1 <=? N) && (5 <=? H) && (5 <=? W)
     then Ok [N; 3; 4 * ceil4 H; 4 * ceil4 W] else Raise)
  /\ (forall n h w, 2 <= h -> 2 <= w ->
        Conv2d_forward (conv_2 StyleTransferNet_init) [n; 32; h; w]
        = Ok [n; 64; (h + 1) / 2; (w + 1) / 2]
        /\ Conv2d_forward (conv_3 StyleTransferNet_init) [n; 64; h; w]
           = Ok [n; 128; (h + 1) / 2; (w + 1) / 2])
  /\ (forall n h w, 1 <= h -> 1 <= w ->
        UpsampleConvLayer_forward (up_1 StyleTransferNet_init)
          [n; 128; h; w] = Ok [n; 64; h * 2; w * 2]
        /\ UpsampleConvLayer_forward (up_2 StyleTransferNet_init)
             [n; 64; h; w] = Ok [n; 32; h * 2; w * 2])
  /\ (forall out, StyleTransferNet_shape [N; 3; H; W] = Ok out ->
        (out = [N; 3; H; W] <-> H mod 4 = 0 /\ W mod 4 = 0)).
Proof.
  split; [apply StyleTransferNet_shape_eq | ].
  split; [ | split].
  - intros n h w Hh Hw. cbn [conv_2 conv_3 StyleTransferNet_init].
    rewrite !Conv2d_stride2.
    replace ((2 <=? h) && (2 <=? w)) with true by layer_cases. auto.
  - intros n h w Hh Hw. cbn [up_1 up_2 StyleTransferNet_init].
    rewrite !UpsampleConvLayer_shape by assumption. auto.
  - intros out. rewrite StyleTransferNet_shape_eq.
    destruct ((1 <=? N) && (5 <=? H) && (5 <=? W)); [ | discriminate].
    intros E.
    assert (E' : out = [N; 3; 4 * ceil4 H; 4 * ceil4 W]) by congruence.
    subst out. clear E. unfold ceil4. split.
    + intros E. injection E as E1 E2. lia.
    + intros [E1 E2].
      replace (4 * ((H + 3) / 4)) with H by lia.
      replace (4 * ((W + 3) / 4)) with W by lia. reflexivity.
Qed.

(** The sizes of [test_net]: a 256x256 batch keeps its shape. *)
Example StyleTransferNet_256 :
  StyleTransferNet_shape [20; 3; 256; 256] = Ok [20; 3; 256; 256].
Proof. vm_compute. reflexivity. Qed.

(** C2, as the network has it: the output of [StyleTransferNet] has the
    shape of its input exactly when the batch is not empty and the
    height and the width are multiples of 4 and at least 8.  On every
    batch the network accepts (not empty, height and width at least 5)
    the output has 3 channels and the height and the width rounded up to
    the next multiple of 4; on every other batch the network raises. *)
Theorem StyleTransferNet_same_shape_iff (N H W : nat) :
  (StyleTransferNet_shape [N; 3; H; W] = Ok [N; 3; H; W]
   <-> (1 <= N /\ 8 <= H /\ 8 <= W /\ H mod 4 = 0 /\ W mod 4 = 0))
  /\ StyleTransferNet_shape [N; 3; H; W]
     = (if (1 <=? N) && (5 <=? H) && (5 <=? W)
        then Ok [N; 3; 4 * ceil4 H; 4 * ceil4 W] else Raise)
  /\ (forall d, (4 * ceil4 d) mod 4 = 0
                /\ d <= 4 * ceil4 d < d + 4
                /\ forall m, m mod 4 = 0 -> d <= m -> 4 * ceil4 d <= m).
Proof.
  split; [ | split; [apply StyleTransferNet_shape_eq | ]].
  - rewrite StyleTransferNet_shape_eq. unfold ceil4.
    destruct (Nat.leb_spec 1 N); destruct (Nat.leb_spec 5 H);
      destruct (Nat.leb_spec 5 W); cbn [andb];
      try (split; [discriminate | lia]).
    split.
    + intros E. injection E as E1 E2. lia.
    + intros (N1 & H8 & W8 & E1 & E2). apply dims4_eq; lia.
  - intros d. unfold ceil4.
    split; [lia | ]. split; [lia | ]. intros m Hm Hd. lia.
Qed.

(** C2 fails on a 6x6 batch: the output is 8x8. *)
Lemma StyleTransferNet_6x6_grows :
  StyleTransferNet_shape [1; 3; 6; 6] = Ok [1; 3; 8; 8]
  /\ StyleTransferNet_shape [1; 3; 6; 6] <> Ok [1; 3; 6; 6].
Proof.
  assert (E : StyleTransferNet_shape [1; 3; 6; 6] = Ok [1; 3; 8; 8])
    by (vm_compute; reflexivity).
  split; [exact E | ]. rewrite E. discriminate.
Qed.

(** C5: on a 3-channel batch that it accepts (height and width at least
    8), [Vgg16.forward] returns exactly four feature maps, in order of
    depth; from one stage to the next the height and the width strictly
    decrease and the channel count does not decrease. *)
Theorem Vgg16_feature_pyramid (N H W : nat) :
  Vgg16_shapes [N; 3; H; W]
  = (if (8 <=? H) && (8 <=? W)
     then Ok [[N; 64; H; W]; [N; 128; H / 2; W / 2];
              [N; 256; H / 4; W / 4]; [N; 512; H / 8; W / 8]]
     else Raise)
  /\ (forall fs, Vgg16_shapes [N; 3; H; W] = Ok fs ->
        length fs = 4
        /\ forall i j, i < j -> j < 4 ->
             height (nth j fs []) < height (nth i fs [])
             /\ width (nth j fs []) < width (nth i fs [])
             /\ channels (nth i fs []) <= channels (nth j fs [])).
Proof.
  split; [apply Vgg16_shapes_eq | ].
  intros fs. rewrite Vgg16_shapes_eq.
  destruct (Nat.leb_spec 8 H); destruct (Nat.leb_spec 8 W); cbn [andb];
    try discriminate.
  intros E.
  assert (E' : fs = [[N; 64; H; W]; [N; 128; H / 2; W / 2];
                     [N; 256; H / 4; W / 4]; [N; 512; H / 8; W / 8]])
    by congruence.
  subst fs. clear E. split; [reflexivity | ].
  intros i j Hij Hj.
  destruct j as [| [| [| [| j]]]]; try lia;
    destruct i as [| [| [| i]]]; try lia;
    cbn [nth height width channels]; lia.
Qed.

(** The sizes of [test_vgg], as the docstring of [Vgg16.forward] lists
    them. *)
Example Vgg16_256 :
  Vgg16_shapes [20; 3; 256; 256]
  = Ok [[20; 64; 256; 256]; [20; 128; 128; 128]; [20; 256; 64; 64];
        [20; 512; 32; 32]].
Proof. vm_compute. reflexivity. Qed.

End ShapeTheorems.

(* ================================================================== *)
(** * Further properties of the code *)

(** ** More facts about sums *)

Section SumFacts.

Local Open Scope Q_scope.

Lemma qsum_zero_inv (n : nat) (f : nat -> Q) :
  (forall i, (i < n)%nat -> 0 <= f i) -> qsum n f == 0 ->
  forall i, (i < n)%nat -> f i == 0.
Proof.
  induction n as [| n IH]; intros P Z i Hi; [lia | ].
  simpl in Z.
  assert (P1 : 0 <= qsum n f) by (apply qsum_nonneg; intros; apply P; lia).
  assert (P2 : 0 <= f n) by (apply P; lia).
  assert (Z1 : qsum n f == 0) by lra.
  assert (Z2 : f n == 0) by lra.
  destruct (Nat.eq_dec i n) as [-> | Ne]; [exact Z2 | ].
  apply IH; try assumption; [intros; apply P | ]; lia.
Qed.

Lemma qsum_over_zero_inv (s : list nat) (f : list nat -> Q) :
  (forall idx, in_bounds s idx -> 0 <= f idx) -> qsum_over s f == 0 ->
  forall idx, in_bounds s idx -> f idx == 0.
Proof.
  revert f. induction s as [| d s IH]; intros f P Z idx B.
  - destruct idx; simpl in B; [exact Z | tauto].
  - destruct idx as [| i idx]; simpl in B; [tauto | ].
    destruct B as [Hi B]. simpl in Z.
    apply (IH (fun idx => f (i :: idx))); try assumption.
    + intros idx' B'. apply P. simpl. auto.
    + apply (qsum_zero_inv d (fun i => qsum_over s (fun idx => f (i :: idx))));
        try assumption.
      intros j Hj. apply qsum_over_nonneg. intros idx' B'. apply P.
      simpl. auto.
Qed.

Lemma Qsq_nonneg (x : Q) : 0 <= x * x.
Proof.
  destruct (Qlt_le_dec x 0).
  - setoid_replace (x * x) with ((- x) * (- x)) by ring.
    apply Qmult_le_0_compat; lra.
  - apply Qmult_le_0_compat; lra.
Qed.

Lemma qsum_scal (n : nat) (c : Q) (f : nat -> Q) :
  qsum n (fun i => c * f i) == c * qsum n f.
Proof.
  induction n as [| n IH]; simpl; [ring | rewrite IH; ring].
Qed.

Lemma qsum_plus (n : nat) (f g : nat -> Q) :
  qsum n (fun i => f i + g i) == qsum n f + qsum n g.
Proof.
  induction n as [| n IH]; simpl; [ring | rewrite IH; ring].
Qed.

(** Exchanging two nested sums. *)
Lemma qsum_swap (n m : nat) (f : nat -> nat -> Q) :
  qsum n (fun i => qsum m (fun j => f i j))
  == qsum m (fun j => qsum n (fun i => f i j)).
Proof.
  induction n as [| n IH]; simpl.
  - symmetry. apply qsum_zero. intros. reflexivity.
  - rewrite IH. rewrite <- qsum_plus. reflexivity.
Qed.

(** A product of two sums is the sum of all products. *)
Lemma qsum_prod (n m : nat) (a b : nat -> Q) :
  qsum n a * qsum m b == qsum n (fun i => qsum m (fun j => a i * b j)).
Proof.
  induction n as [| n IH]; simpl; [ring | ].
  rewrite <- IH, qsum_scal. ring.
Qed.

End SumFacts.

Section MseFacts.

Local Open Scope Q_scope.

Lemma bdim_comm (a b : nat) : bdim a b = bdim b a.
Proof.
  unfold bdim.
  destruct (Nat.eqb_spec a b), (Nat.eqb_spec b a), (Nat.eqb_spec a 1),
    (Nat.eqb_spec b 1); subst; try reflexivity; congruence.
Qed.

Lemma bshape_rev_comm (r1 r2 : list nat) :
  bshape_rev r1 r2 = bshape_rev r2 r1.
Proof.
  revert r2. induction r1 as [| a r1 IH]; intros [| b r2]; simpl;
    try reflexivity.
  rewrite bdim_comm, IH. reflexivity.
Qed.

Lemma broadcast_shapes_comm (s1 s2 : list nat) :
  broadcast_shapes s1 s2 = broadcast_shapes s2 s1.
Proof. unfold broadcast_shapes. rewrite bshape_rev_comm. reflexivity. Qed.

Lemma sq_diff_comm (a b : scalar) :
  seqv (smul (ssub a b) (ssub a b)) (smul (ssub b a) (ssub b a)).
Proof. destruct a, b; simpl; try exact I. ring. Qed.

(** X1: the mean squared error does not depend on the order of its
    arguments: [L_feat a b] and [L_feat b a] both raise or return the
    same number, for tensors of any shapes; likewise [L_pixel]. *)
Theorem mse_loss_symmetric (a b : tensor) :
  same_outcome (L_feat a b) (L_feat b a)
  /\ same_outcome (L_pixel a b) (L_pixel b a).
Proof.
  assert (K : same_outcome (mse_loss a b) (mse_loss b a)).
  { unfold mse_loss. rewrite (broadcast_shapes_comm (shape b)).
    destruct (broadcast_shapes (shape a) (shape b)) as [s |]; simpl;
      [ | exact I].
    unfold mean. cbn [shape get]. apply sdivn_seqv. apply sum_over_seqv.
    intros idx _. apply sq_diff_comm. }
  split; exact K.
Qed.

(** The mean squared error of two finite tensors of one shape. *)
Lemma mse_loss_same_shape (a b : tensor) :
  shape a = shape b -> finite a -> finite b ->
  numel (shape a) <> 0%nat ->
  exists v, mse_loss a b = Ok (Some v)
    /\ 0 <= v
    /\ (v == 0 <->
        forall idx, in_bounds (shape a) idx -> val a idx == val b idx).
Proof.
  intros Hs Fa Fb Hn. unfold mse_loss.
  rewrite <- Hs, broadcast_shapes_refl.
  rewrite (mean_finite (shape a) _ (fun idx =>
     (val a idx - val b idx) * (val a idx - val b idx))).
  2: { intros idx Bd. cbn [get expand]. rewrite <- Hs.
       rewrite (bindex_in_bounds _ _ Bd).
       rewrite (finite_val a idx Fa Bd).
       rewrite (finite_val b idx Fb) by (rewrite <- Hs; exact Bd).
       reflexivity. }
  2: exact Hn.
  assert (P : 0 < qn (numel (shape a))) by (apply qn_pos; exact Hn).
  assert (NN : forall idx, in_bounds (shape a) idx ->
            0 <= (val a idx - val b idx) * (val a idx - val b idx)).
  { intros idx _. apply Qsq_nonneg. }
  eexists. split; [reflexivity | ]. split.
  - apply Qdiv_nonneg; [apply qsum_over_nonneg; exact NN | exact P].
  - split.
    + intros Z idx Bd.
      assert (Z' : qsum_over (shape a) (fun idx =>
                (val a idx - val b idx) * (val a idx - val b idx)) == 0).
      { apply Qmult_inj_r with (z := / qn (numel (shape a))).
        - intros E. apply Qinv_lt_0_compat in P. lra.
        - rewrite Qmult_0_l. exact Z. }
      pose proof (qsum_over_zero_inv _ _ NN Z' idx Bd) as Sq.
      cbv beta in Sq. apply Qmult_integral in Sq. destruct Sq; lra.
    + intros E. apply Qdiv_zero. apply qsum_over_zero.
      intros idx Bd. rewrite (E idx Bd). ring.
Qed.

(** X2: for finite tensors of one non-empty shape, [L_feat a b] is a
    non-negative number, and it is 0 exactly when [a] and [b] hold the
    same value at every position. *)
Theorem mse_loss_nonneg_zero_iff (a b : tensor) :
  shape a = shape b -> finite a -> finite b ->
  numel (shape a) <> 0%nat ->
  exists v, L_feat a b = Ok (Some v)
    /\ 0 <= v
    /\ (v == 0 <->
        forall idx, in_bounds (shape a) idx -> val a idx == val b idx).
Proof. intros. unfold L_feat. apply mse_loss_same_shape; assumption. Qed.

End MseFacts.

Section GramMore.

Local Open Scope Q_scope.

Lemma sadd_None_r (a : scalar) : sadd a None = None.
Proof. destruct a; reflexivity. Qed.

Lemma sum_over_none (s : list nat) (f : list nat -> scalar) :
  numel s <> 0%nat ->
  (forall idx, in_bounds s idx -> f idx = None) ->
  sum_over s f = None.
Proof.
  revert f. induction s as [| d s IH]; intros f Hn E; simpl.
  - apply E. exact I.
  - simpl in Hn. destruct d as [| d]; [lia | ]. simpl.
    rewrite (IH (fun idx => f (d :: idx))).
    + apply sadd_None_r.
    + nia.
    + intros idx B. apply E. simpl. split; [lia | exact B].
Qed.

(** A tensor without any finite element has no finite mean. *)
Lemma mean_none (s : list nat) (f : list nat -> scalar) :
  (forall idx, in_bounds s idx -> f idx = None) ->
  mean (mkTensor s f) = None.
Proof.
  intros E. destruct (Nat.eq_dec (numel s) 0) as [Z | Nz].
  - apply mean_empty. exact Z.
  - unfold mean. cbn [shape get]. rewrite (sum_over_none s f Nz E).
    reflexivity.
Qed.

Lemma mse_loss_none_l (a b : tensor) (q : Q) :
  (forall idx, get a idx = None) -> mse_loss a b <> Ok (Some q).
Proof.
  intros E. unfold mse_loss.
  destruct (broadcast_shapes (shape a) (shape b)) as [s |];
    [ | discriminate].
  rewrite mean_none; [discriminate | ].
  intros idx _. cbn [get expand]. rewrite E. reflexivity.
Qed.

Lemma mse_loss_none_r (a b : tensor) (q : Q) :
  (forall idx, get b idx = None) -> mse_loss a b <> Ok (Some q).
Proof.
  intros E. unfold mse_loss.
  destruct (broadcast_shapes (shape a) (shape b)) as [s |];
    [ | discriminate].
  rewrite mean_none; [discriminate | ].
  intros idx _. cbn [get expand]. rewrite E.
  destruct (get a _); reflexivity.
Qed.

(** Every entry of the Gram matrix is a quotient by [h * w]. *)
Lemma gram_matrix_quotients (x : tensor) (b c h w : nat) :
  shape x = [b; c; h; w] ->
  exists G, gram_matrix x = Ok G
    /\ forall idx, exists a, get G idx = sdivn a (h * w).
Proof.
  intros Hs. unfold gram_matrix. rewrite Hs.
  unfold view. rewrite Hs.
  replace (numel [b; c; h; w]) with (numel [b; c; (h * w)%nat])
    by (simpl; lia).
  rewrite Nat.eqb_refl. cbn [rbind].
  unfold transpose. cbn [shape length Nat.ltb Nat.leb andb rbind].
  unfold bmm. cbn [shape swap nth_error on_nth].
  rewrite !Nat.eqb_refl. cbn [andb rbind].
  eexists. split; [reflexivity | ].
  intros idx. eexists. reflexivity.
Qed.

Lemma gram_matrix_not_4d (x : tensor) :
  length (shape x) <> 4%nat -> gram_matrix x = Raise.
Proof.
  unfold gram_matrix.
  destruct (shape x) as [| b [| c [| h [| w [| ? ?]]]]]; simpl;
    intros H; try reflexivity; lia.
Qed.

(** X3: [gram_matrix] raises on every input that is not 4-dimensional
    (the unpacking of [input.size()] into four names fails before
    anything is computed), and [L_style] raises as soon as one of its
    two arguments is not 4-dimensional, whichever it is. *)
Theorem gram_matrix_raises_unless_4d (x : tensor) :
  (length (shape x) <> 4%nat -> gram_matrix x = Raise)
  /\ (forall y, length (shape x) <> 4%nat \/ length (shape y) <> 4%nat ->
        L_style x y = Raise /\ L_style y x = Raise).
Proof.
  split.
  - apply gram_matrix_not_4d.
  - intros y [L | L]; unfold L_style; split;
      rewrite ?(gram_matrix_not_4d x L), ?(gram_matrix_not_4d y L);
      try reflexivity.
    + destruct (gram_matrix y); reflexivity.
    + destruct (gram_matrix x); reflexivity.
Qed.

(** X4: on a feature map without spatial extent ([h * w = 0]) the
    division by [h * w] leaves no finite entry in the Gram matrix, so a
    style loss against such a map is never a number. *)
Theorem gram_matrix_empty_spatial (x : tensor) (b c h w : nat) :
  shape x = [b; c; h; w] -> (h * w)%nat = 0%nat ->
  (exists G, gram_matrix x = Ok G /\ forall idx, get G idx = None)
  /\ (forall y q, L_style x y <> Ok (Some q) /\ L_style y x <> Ok (Some q)).
Proof.
  intros Hs Z.
  destruct (gram_matrix_quotients x b c h w Hs) as (G & HG & Q).
  assert (N : forall idx, get G idx = None).
  { intros idx. destruct (Q idx) as (a & ->). rewrite Z.
    destruct a; reflexivity. }
  split; [exists G; auto | ].
  intros y q. unfold L_style. rewrite HG. cbn [rbind]. split.
  - destruct (gram_matrix y) as [Gy |]; cbn [rbind]; [ | discriminate].
    apply mse_loss_none_l. exact N.
  - destruct (gram_matrix y) as [Gy |]; cbn [rbind]; [ | discriminate].
    apply mse_loss_none_r. exact N.
Qed.

(** The quadratic form of a matrix of inner products is a sum of
    squares. *)
Lemma quad_gram (c m : nat) (v : nat -> Q) (A : nat -> nat -> Q) :
  qsum c (fun i => qsum c (fun j =>
    v i * v j * qsum m (fun k => A i k * A j k)))
  == qsum m (fun k =>
       qsum c (fun i => v i * A i k) * qsum c (fun i => v i * A i k)).
Proof.
  transitivity (qsum c (fun i => qsum m (fun k => qsum c (fun j =>
                  (v i * A i k) * (v j * A j k))))).
  - apply qsum_ext. intros i _.
    rewrite <- qsum_swap. apply qsum_ext. intros j _.
    rewrite <- qsum_scal. apply qsum_ext. intros k _. ring.
  - rewrite qsum_swap. apply qsum_ext. intros k _.
    rewrite qsum_prod. reflexivity.
Qed.

Lemma gram_entry_flat (x : tensor) (b c h w : nat) :
  shape x = [b; c; h; w] -> finite x -> (h * w)%nat <> 0%nat ->
  exists G, gram_matrix x = Ok G /\ shape G = [b; c; c] /\ finite G
    /\ forall n i j, (n < b)%nat -> (i < c)%nat -> (j < c)%nat ->
         val G [n; i; j]
         == qsum (h * w) (fun k =>
              at4 x n i (k / w) (k mod w) * at4 x n j (k / w) (k mod w))
            / qn (h * w)
         /\ val G [n; i; j] == GramMatrix h w x n i j.
Proof.
  intros Hs F Hhw.
  destruct (gram_matrix_finite x b c h w Hs F Hhw)
    as (G & HG & HsG & FG & V).
  exists G. split; [exact HG | ]. split; [exact HsG | ].
  split; [exact FG | ].
  intros n i j Hn Hi Hj.
  destruct (V n i j Hn Hi Hj) as (q & Hq & Eq).
  unfold val. rewrite Hq. split; [ | exact Eq].
  rewrite Eq. unfold GramMatrix.
  rewrite (qsum_flatten h w (fun p q =>
             at4 x n i p q * at4 x n j p q)).
  reflexivity.
Qed.

(** X5: the Gram matrix of a finite feature map is positive
    semidefinite: for every sample its diagonal is non-negative and so is
    its quadratic form [sum_i sum_j v_i v_j G[n, i, j]] for every vector
    [v]. *)
Theorem gram_matrix_positive_semidefinite (x : tensor) (b c h w : nat) :
  shape x = [b; c; h; w] -> finite x -> (h * w)%nat <> 0%nat ->
  exists G, gram_matrix x = Ok G
    /\ forall n, (n < b)%nat ->
         (forall i, (i < c)%nat -> 0 <= val G [n; i; i])
         /\ (forall v : nat -> Q,
               0 <= qsum c (fun i => qsum c (fun j =>
                      v i * v j * val G [n; i; j]))).
Proof.
  intros Hs F Hhw.
  destruct (gram_entry_flat x b c h w Hs F Hhw) as (G & HG & _ & _ & V).
  exists G. split; [exact HG | ].
  intros n Hn.
  assert (P : 0 < qn (h * w)) by (apply qn_pos; exact Hhw).
  split.
  - intros i Hi. destruct (V n i i Hn Hi Hi) as [E _]. rewrite E.
    apply Qdiv_nonneg; [ | exact P].
    apply qsum_nonneg. intros k _. apply Qsq_nonneg.
  - intros v.
    assert (E : qsum c (fun i => qsum c (fun j =>
                  v i * v j * val G [n; i; j]))
                == qsum c (fun i => qsum c (fun j =>
                     v i * v j * qsum (h * w) (fun k =>
                       at4 x n i (k / w) (k mod w)
                       * at4 x n j (k / w) (k mod w))))
                   / qn (h * w)).
    { unfold Qdiv. rewrite Qmult_comm, <- qsum_scal.
      apply qsum_ext. intros i Hi. rewrite <- qsum_scal.
      apply qsum_ext. intros j Hj.
      destruct (V n i j Hn Hi Hj) as [E _]. rewrite E.
      unfold Qdiv. ring. }
    rewrite E.
    rewrite (quad_gram c (h * w) v (fun i k =>
               at4 x n i (k / w) (k mod w))).
    apply Qdiv_nonneg; [ | exact P].
    apply qsum_nonneg. intros k _. apply Qsq_nonneg.
Qed.

End GramMore.

Section LayoutAndTv.

Local Open Scope Q_scope.

Lemma in_bounds3 (B C D : nat) (idx : list nat) :
  in_bounds [B; C; D] idx ->
  exists b c d, idx = [b; c; d] /\ (b < B)%nat /\ (c < C)%nat /\ (d < D)%nat.
Proof.
  destruct idx as [| b [| c [| d [| ? ?]]]]; simpl; try tauto.
  intros (Hb & Hc & Hd & _). exists b, c, d. auto.
Qed.

(** X6: the Gram matrix does not see the spatial arrangement: a
    feature map and the map with rows and columns exchanged have the
    same Gram matrix, and the style loss between the two is 0. *)
Theorem gram_matrix_ignores_transposition (x y : tensor) (b c h w : nat) :
  shape x = [b; c; h; w] -> shape y = [b; c; w; h] ->
  finite x -> finite y ->
  (1 <= b)%nat -> (1 <= c)%nat -> (1 <= h)%nat -> (1 <= w)%nat ->
  (forall n i p q, (n < b)%nat -> (i < c)%nat -> (p < h)%nat ->
     (q < w)%nat -> at4 y n i q p == at4 x n i p q) ->
  exists Gx Gy,
    gram_matrix x = Ok Gx /\ gram_matrix y = Ok Gy
    /\ (forall n i j, (n < b)%nat -> (i < c)%nat -> (j < c)%nat ->
          val Gx [n; i; j] == val Gy [n; i; j])
    /\ exists l, L_style x y = Ok (Some l) /\ l == 0.
Proof.
  intros Hx Hy Fx Fy Hb Hc Hh Hw T.
  destruct (gram_entry_flat x b c h w Hx Fx) as (Gx & HGx & Sx & FGx & Vx);
    [nia | ].
  destruct (gram_entry_flat y b c w h Hy Fy) as (Gy & HGy & Sy & FGy & Vy);
    [nia | ].
  assert (E : forall n i j, (n < b)%nat -> (i < c)%nat -> (j < c)%nat ->
                val Gx [n; i; j] == val Gy [n; i; j]).
  { intros n i j Hn Hi Hj.
    destruct (Vx n i j Hn Hi Hj) as [_ ->].
    destruct (Vy n i j Hn Hi Hj) as [_ ->].
    unfold GramMatrix. replace (w * h)%nat with (h * w)%nat by lia.
    apply Qmult_comp; [ | reflexivity].
    rewrite qsum_swap. apply qsum_ext. intros q Hq.
    apply qsum_ext. intros p Hp.
    rewrite !T by assumption. reflexivity. }
  exists Gx, Gy. repeat (split; [assumption | ]).
  unfold L_style. rewrite HGx, HGy. cbn [rbind].
  destruct (mse_loss_same_shape Gx Gy) as (v & Hv & _ & Z);
    try assumption; try congruence.
  { rewrite Sx. apply numel_pos. repeat constructor; lia. }
  exists v. split; [exact Hv | ]. apply Z.
  intros idx Bd. rewrite Sx in Bd. apply in_bounds3 in Bd.
  destruct Bd as (n & i & j & -> & Hn & Hi & Hj). apply E; assumption.
Qed.

Lemma qsum_over_scal (s : list nat) (c : Q) (f : list nat -> Q) :
  qsum_over s (fun idx => c * f idx) == c * qsum_over s f.
Proof.
  revert f. induction s as [| d s IH]; intros f; simpl; [reflexivity | ].
  rewrite <- qsum_scal. apply qsum_ext. intros i _. apply IH.
Qed.

(** X7: [L_tv] ignores a constant offset and scales with the absolute
    value of a factor: if [y = k * x + c] at every pixel then
    [L_tv y = |k| * L_tv x]. *)
Theorem L_tv_affine (x y : tensor) (B C H W : nat) (k c : Q) :
  shape x = [B; C; H; W] -> shape y = [B; C; H; W] ->
  finite x -> finite y ->
  (1 <= B)%nat -> (1 <= C)%nat -> (2 <= H)%nat -> (2 <= W)%nat ->
  (forall idx, in_bounds [B; C; H; W] idx ->
     val y idx == k * val x idx + c) ->
  exists u v, L_tv x = Ok (Some u) /\ L_tv y = Ok (Some v)
              /\ v == Qabs k * u.
Proof.
  intros Hx Hy Fx Fy HB HC HH HW A.
  rewrite (L_tv_finite x B C H W), (L_tv_finite y B C H W) by assumption.
  do 2 eexists. split; [reflexivity | ]. split; [reflexivity | ].
  assert (D : forall a a' b b', b == k * a + c -> b' == k * a' + c ->
            Qabs (b - b') == Qabs k * Qabs (a - a')).
  { intros a a' b0 b' -> ->. rewrite <- Qabs_Qmult.
    apply Qabs_wd. ring. }
  rewrite (qsum_over_ext [B; C; H; (W - 1)%nat] _ (fun idx =>
    Qabs k * Qabs (val x idx - val x (on_nth 3 S idx)))).
  2: { intros idx Bd. apply in_bounds4 in Bd.
       destruct Bd as (b & c0 & h & w & -> & Hb & Hc & Hh & Hw).
       cbn [on_nth]. apply D; apply A; simpl; repeat split; lia. }
  rewrite (qsum_over_ext [B; C; (H - 1)%nat; W] _ (fun idx =>
    Qabs k * Qabs (val x idx - val x (on_nth 2 S idx)))).
  2: { intros idx Bd. apply in_bounds4 in Bd.
       destruct Bd as (b & c0 & h & w & -> & Hb & Hc & Hh & Hw).
       cbn [on_nth]. apply D; apply A; simpl; repeat split; lia. }
  rewrite !qsum_over_scal. unfold Qdiv. ring.
Qed.

Lemma L_tv_nonneg_core (preds : tensor) (B C H W : nat) :
  shape preds = [B; C; H; W] -> finite preds ->
  (1 <= B)%nat -> (1 <= C)%nat -> (2 <= H)%nat -> (2 <= W)%nat ->
  exists v, L_tv preds = Ok (Some v) /\ 0 <= v.
Proof.
  intros Hs F HB HC HH HW.
  rewrite (L_tv_finite preds B C H W) by assumption.
  eexists. split; [reflexivity | ].
  assert (0 <= qsum_over [B; C; H; (W - 1)%nat] (fun idx =>
            Qabs (val preds idx - val preds (on_nth 3 S idx)))
            / qn (numel [B; C; H; (W - 1)%nat])).
  { apply Qdiv_nonneg.
    - apply qsum_over_nonneg. intros. apply Qabs_nonneg.
    - apply qn_pos, numel_pos. repeat constructor; lia. }
  assert (0 <= qsum_over [B; C; (H - 1)%nat; W] (fun idx =>
            Qabs (val preds idx - val preds (on_nth 2 S idx)))
            / qn (numel [B; C; (H - 1)%nat; W])).
  { apply Qdiv_nonneg.
    - apply qsum_over_nonneg. intros. apply Qabs_nonneg.
    - apply qn_pos, numel_pos. repeat constructor; lia. }
  lra.
Qed.

Lemma L_tv_shapes (preds : tensor) (B C H W : nat) (rest : list nat) :
  shape preds = B :: C :: H :: W :: rest ->
  exists fw fh,
    L_tv preds
    = Ok (sadd (mean (mkTensor (B :: C :: H :: (W - 1)%nat :: rest) fw))
               (mean (mkTensor (B :: C :: (H - 1)%nat :: W :: rest) fh))).
Proof.
  intros Hs.
  unfold L_tv, getitem. rewrite Hs. simpl slice_shape. cbn [rbind].
  unfold tsub, map2. cbn [shape].
  rewrite !Nat.sub_0_r, !clamp_m1, !clamp_1.
  replace (W - Nat.min 1 W)%nat with (W - 1)%nat by lia.
  replace (H - Nat.min 1 H)%nat with (H - 1)%nat by lia.
  rewrite !broadcast_shapes_refl. cbn [rbind].
  do 2 eexists. reflexivity.
Qed.

(** X8: [L_tv] raises exactly when its argument has fewer than four
    dimensions (the four-index slices); with four or more it returns. *)
Theorem L_tv_raises_iff (preds : tensor) :
  L_tv preds = Raise <-> (length (shape preds) < 4)%nat.
Proof.
  split.
  - intros R.
    destruct (shape preds) as [| B [| C [| H [| W rest]]]] eqn:Hs;
      simpl; try lia.
    destruct (L_tv_shapes preds B C H W rest Hs) as (fw & fh & E).
    congruence.
  - intros L. unfold L_tv, getitem.
    destruct (shape preds) as [| B [| C [| H [| W rest]]]];
      simpl in L; try lia; reflexivity.
Qed.

(** X9: on a finite 4-dimensional batch [L_tv] returns a number
    exactly when the batch has a sample, a channel, and at least two
    rows and two columns; otherwise a mean is taken over nothing. *)
Theorem L_tv_is_a_number_iff (preds : tensor) (B C H W : nat) :
  shape preds = [B; C; H; W] -> finite preds ->
  ((exists v, L_tv preds = Ok (Some v))
   <-> (1 <= B /\ 1 <= C /\ 2 <= H /\ 2 <= W)%nat).
Proof.
  intros Hs F. split.
  - intros (v & Hv).
    destruct (L_tv_shapes preds B C H W [] Hs) as (fw & fh & E).
    rewrite E in Hv. injection Hv as Hv.
    destruct (Nat.eq_dec (numel [B; C; H; (W - 1)%nat]) 0) as [Z | Nz].
    { rewrite (mean_empty (mkTensor _ fw) Z) in Hv. discriminate. }
    destruct (Nat.eq_dec (numel [B; C; (H - 1)%nat; W]) 0) as [Z | Nz'].
    { rewrite (mean_empty (mkTensor _ fh) Z), sadd_None_r in Hv.
      discriminate. }
    simpl in Nz, Nz'.
    repeat match goal with
      | K : (_ * _)%nat <> 0%nat |- _ => apply Nat.neq_mul_0 in K; destruct K
      end.
    lia.
  - intros (HB & HC & HH & HW).
    eexists. apply (L_tv_finite preds B C H W); assumption.
Qed.

End LayoutAndTv.

Section ShapeMore.

Lemma Conv2d_wrong_channels (l : Conv2d) (n c h w : nat) :
  c <> in_channels l -> Conv2d_forward l [n; c; h; w] = Raise.
Proof.
  intros Ne. unfold Conv2d_forward.
  destruct (Nat.eqb_spec c (in_channels l)); [contradiction | reflexivity].
Qed.

(** X10: [ResidualBlock(c).forward] keeps the shape of a batch with
    [c] channels and at least 2 rows and 2 columns, and raises on every
    other 4-dimensional batch (channel mismatch, or reflection padding 1
    on a dimension of size 1 or 0). *)
Theorem ResidualBlock_forward_shape (c n c' h w : nat) :
  ResidualBlock_forward (ResidualBlock_init c) [n; c'; h; w]
  = if (c' =? c) && (2 <=? h) && (2 <=? w)
    then Ok [n; c; h; w] else Raise.
Proof.
  destruct (Nat.eqb_spec c' c) as [-> | Ne]; cbn [andb].
  - destruct (Nat.leb_spec 2 h); destruct (Nat.leb_spec 2 w); cbn [andb];
      try (apply ResidualBlock_shape; assumption);
      unfold ResidualBlock_forward, ResidualBlock_init;
      cbn [rb_conv_1]; rewrite (Conv2d_same_reflect c c 1);
      replace ((1 <? h) && (1 <? w)) with false by layer_cases;
      reflexivity.
  - unfold ResidualBlock_forward, ResidualBlock_init. cbn [rb_conv_1].
    rewrite Conv2d_wrong_channels by exact Ne. reflexivity.
Qed.

(** X11: [UpsampleConvLayer] with an odd kernel [2p + 1] and stride 1
    multiplies height and width by its factor [f] (by 1 when the factor
    is [None] or 0, where the layer is a plain convolution), and raises
    when the reflection padding [p] does not fit the resized input. *)
Theorem UpsampleConvLayer_forward_shape (cin cout p n h w : nat)
    (up : option nat) :
  let f := match up with Some (S f') => S f' | _ => 1 end in
  UpsampleConvLayer_forward
    (UpsampleConvLayer_init cin cout (2 * p + 1) 1 up) [n; cin; h; w]
  = if (p <? h * f) && (p <? w * f)
    then Ok [n; cout; h * f; w * f] else Raise.
Proof.
  unfold UpsampleConvLayer_forward, UpsampleConvLayer_init.
  cbn [upsample conv2d].
  replace ((2 * p + 1) / 2) with p by lia.
  destruct up as [[| f'] |]; cbn [Upsample_forward rbind];
    rewrite ?(Conv2d_same_reflect cin cout p);
    rewrite ?Nat.mul_1_r; reflexivity.
Qed.

Lemma StyleTransferNet_first_layer (s : dims) :
  Conv2d_forward (conv_1 StyleTransferNet_init) s = Raise ->
  StyleTransferNet_shape s = Raise.
Proof.
  intros R. unfold StyleTransferNet_shape, StyleTransferNet_forward.
  rewrite R. reflexivity.
Qed.

(** X12: [StyleTransferNet.forward] accepts a 4-dimensional batch
    exactly when it is not empty, has 3 channels and has height and
    width at least 5. *)
Theorem StyleTransferNet_accepts_iff (N C H W : nat) :
  (exists out, StyleTransferNet_shape [N; C; H; W] = Ok out)
  <-> (1 <= N /\ C = 3 /\ 5 <= H /\ 5 <= W).
Proof.
  split.
  - intros (out & E).
    destruct (Nat.eq_dec C 3) as [-> | Ne].
    + rewrite StyleTransferNet_shape_eq in E.
      destruct (Nat.leb_spec 1 N); destruct (Nat.leb_spec 5 H);
        destruct (Nat.leb_spec 5 W); cbn [andb] in E; try discriminate.
      auto.
    + rewrite StyleTransferNet_first_layer in E; [discriminate | ].
      apply Conv2d_wrong_channels. exact Ne.
  - intros (HN & -> & HH & HW).
    rewrite StyleTransferNet_shape_eq.
    replace ((1 <=? N) && (5 <=? H) && (5 <=? W)) with true
      by layer_cases.
    eexists. reflexivity.
Qed.

(** X13: whenever [StyleTransferNet] returns, the height and the width
    of its output are the input's rounded up to multiples of 4 (less
    than 4 more than the input's), and the network applied to its own
    output keeps that shape. *)
Theorem StyleTransferNet_output_is_a_fixed_point (N H W : nat) (out : dims) :
  StyleTransferNet_shape [N; 3; H; W] = Ok out ->
  exists H' W',
    out = [N; 3; H'; W']
    /\ H' mod 4 = 0 /\ W' mod 4 = 0
    /\ H <= H' < H + 4 /\ W <= W' < W + 4
    /\ StyleTransferNet_shape out = Ok out.
Proof.
  rewrite StyleTransferNet_shape_eq.
  destruct (Nat.leb_spec 1 N); destruct (Nat.leb_spec 5 H);
    destruct (Nat.leb_spec 5 W); cbn [andb]; try discriminate.
  intros E.
  assert (E' : out = [N; 3; 4 * ceil4 H; 4 * ceil4 W]) by congruence.
  subst out. clear E.
  exists (4 * ceil4 H), (4 * ceil4 W). unfold ceil4.
  repeat split; try lia.
  rewrite StyleTransferNet_shape_eq.
  replace ((1 <=? N) && (5 <=? 4 * ((H + 3) / 4))
           && (5 <=? 4 * ((W + 3) / 4)))
    with true by layer_cases.
  unfold ceil4. apply dims4_eq; lia.
Qed.

Lemma Vgg16_first_layer (s : dims) :
  Conv2d_forward (mkConv2d 3 64 3 1 1 pad_zeros) s = Raise ->
  Vgg16_shapes s = Raise.
Proof.
  intros R. unfold Vgg16_shapes, Vgg16_forward.
  destruct Vgg16_slices as (-> & _).
  cbn [Sequential_forward layer_forward]. rewrite R. reflexivity.
Qed.

(** X14: [Vgg16.forward] accepts a 4-dimensional batch exactly when
    it has 3 channels and height and width at least 8. *)
Theorem Vgg16_accepts_iff (N C H W : nat) :
  (exists fs, Vgg16_shapes [N; C; H; W] = Ok fs)
  <-> (C = 3 /\ 8 <= H /\ 8 <= W).
Proof.
  split.
  - intros (fs & E).
    destruct (Nat.eq_dec C 3) as [-> | Ne].
    + rewrite Vgg16_shapes_eq in E.
      destruct (Nat.leb_spec 8 H); destruct (Nat.leb_spec 8 W);
        cbn [andb] in E; try discriminate.
      auto.
    + rewrite Vgg16_first_layer in E; [discriminate | ].
      apply Conv2d_wrong_channels. exact Ne.
  - intros (-> & HH & HW).
    rewrite Vgg16_shapes_eq.
    replace ((8 <=? H) && (8 <=? W)) with true by layer_cases.
    eexists. reflexivity.
Qed.

Lemma Sequential_forward_app (l1 l2 : list layer) (x : dims) :
  Sequential_forward (l1 ++ l2) x
  = (let/r y := Sequential_forward l1 x in Sequential_forward l2 y).
Proof.
  revert x. induction l1 as [| l l1 IH]; intros x; simpl.
  - reflexivity.
  - destruct (layer_forward l x) as [y |]; simpl; [apply IH | reflexivity].
Qed.

(** X15: the four slices of [Vgg16.__init__] are consecutive and do
    not overlap: together they are the first 23 layers of the backbone,
    and the four maps [forward] returns are the backbone cut after its
    layers 4, 9, 16 and 23, each applied to the input. *)
Theorem Vgg16_outputs_are_backbone_prefixes (x : dims) :
  slice1 Vgg16_init ++ slice2 Vgg16_init ++ slice3 Vgg16_init
    ++ slice4 Vgg16_init = firstn 23 vgg16_features
  /\ Vgg16_shapes x
     = (let/r r1 := Sequential_forward (firstn 4 vgg16_features) x in
        let/r r2 := Sequential_forward (firstn 9 vgg16_features) x in
        let/r r3 := Sequential_forward (firstn 16 vgg16_features) x in
        let/r r4 := Sequential_forward (firstn 23 vgg16_features) x in
        Ok [r1; r2; r3; r4]).
Proof.
  split; [reflexivity | ].
  change (firstn 4 vgg16_features) with (slice1 Vgg16_init).
  change (firstn 9 vgg16_features)
    with (slice1 Vgg16_init ++ slice2 Vgg16_init).
  change (firstn 16 vgg16_features)
    with ((slice1 Vgg16_init ++ slice2 Vgg16_init) ++ slice3 Vgg16_init).
  change (firstn 23 vgg16_features)
    with (((slice1 Vgg16_init ++ slice2 Vgg16_init) ++ slice3 Vgg16_init)
          ++ slice4 Vgg16_init).
  rewrite !Sequential_forward_app.
  unfold Vgg16_shapes, Vgg16_forward.
  destruct (Sequential_forward (slice1 Vgg16_init) x) as [r1 |];
    cbn [rbind]; [ | reflexivity].
  destruct (Sequential_forward (slice2 Vgg16_init) r1) as [r2 |];
    cbn [rbind]; [ | reflexivity].
  destruct (Sequential_forward (slice3 Vgg16_init) r2) as [r3 |];
    cbn [rbind]; [ | reflexivity].
  destruct (Sequential_forward (slice4 Vgg16_init) r3) as [r4 |];
    cbn [rbind]; reflexivity.
Qed.

End ShapeMore.

Section Pipeline.

(** What an extractor with the shapes of [Vgg16] returns on a batch that
    [Vgg16] accepts. *)
Lemma extracts_like_Vgg16_stages (e : extractor) (x : tensor)
    (N H W : nat) :
  shape x = [N; 3; H; W] -> 8 <= H -> 8 <= W ->
  extracts_like_Vgg16 e x ->
  exists f1 f2 f3 f4,
    e x = Ok [f1; f2; f3; f4]
    /\ shape f1 = [N; 64; H; W] /\ shape f2 = [N; 128; H / 2; W / 2]
    /\ shape f3 = [N; 256; H / 4; W / 4]
    /\ shape f4 = [N; 512; H / 8; W / 8]
    /\ finite f1 /\ finite f2 /\ finite f3 /\ finite f4.
Proof.
  intros Hx HH HW (fs & He & Hsh & Hfin).
  rewrite Hx, Vgg16_shapes_eq in Hsh.
  replace ((8 <=? H) && (8 <=? W)) with true in Hsh by layer_cases.
  destruct fs as [| f1 [| f2 [| f3 [| f4 [| ? ?]]]]]; try discriminate.
  cbn [map] in Hsh.
  assert (S1 : shape f1 = [N; 64; H; W]) by congruence.
  assert (S2 : shape f2 = [N; 128; H / 2; W / 2]) by congruence.
  assert (S3 : shape f3 = [N; 256; H / 4; W / 4]) by congruence.
  assert (S4 : shape f4 = [N; 512; H / 8; W / 8]) by congruence.
  inversion Hfin as [| ? ? F1 K1]. inversion K1 as [| ? ? F2 K2].
  inversion K2 as [| ? ? F3 K3]. inversion K3 as [| ? ? F4 _].
  exists f1, f2, f3, f4. repeat split; assumption.
Qed.

Lemma broadcast_4d_mismatch (a b c d a' b' c' d' : nat) :
  bdim c c' = None \/ bdim d d' = None ->
  broadcast_shapes [a; b; c; d] [a'; b'; c'; d'] = None.
Proof.
  intros [E | E]; unfold broadcast_shapes; simpl; rewrite E;
    [destruct (bdim d d') | ]; reflexivity.
Qed.

Lemma broadcast_3d_batch_mismatch (a b c a' b' c' : nat) :
  bdim a a' = None ->
  broadcast_shapes [a; b; c] [a'; b'; c'] = None.
Proof.
  intros E. unfold broadcast_shapes. simpl. rewrite E.
  destruct (bdim c c'); destruct (bdim b b'); reflexivity.
Qed.

Lemma bdim_None (a b : nat) :
  a <> b -> a <> 1 -> b <> 1 -> bdim a b = None.
Proof.
  intros. unfold bdim.
  destruct (Nat.eqb_spec a b), (Nat.eqb_spec a 1), (Nat.eqb_spec b 1);
    try contradiction; reflexivity.
Qed.

(** X16: the training step on the network's own output: if [y_hat]
    has the shape [StyleTransferNet] gives to [x] and the height or the
    width of [x] is not a multiple of 4, then
    [extract_and_calculate_loss x y_hat] raises: the third-stage
    features of [x] and [y_hat] differ in size and the content loss
    cannot broadcast them. *)
Theorem training_step_raises_unless_multiples_of_4
    (w : world) (x y_hat : tensor) (N H W : nat) :
  shape x = [N; 3; H; W] -> 8 <= H -> 8 <= W ->
  StyleTransferNet_shape (shape x) = Ok (shape y_hat) ->
  extracts_like_Vgg16 (vgg (self w)) x ->
  extracts_like_Vgg16 (vgg (self w)) y_hat ->
  H mod 4 <> 0 \/ W mod 4 <> 0 ->
  fst (extract_and_calculate_loss x y_hat w) = Raise.
Proof.
  intros Hx HH HW Hnet Ex Ey Odd.
  rewrite Hx, StyleTransferNet_shape_eq in Hnet.
  destruct ((1 <=? N) && (5 <=? H) && (5 <=? W)); [ | discriminate].
  assert (Hy : shape y_hat = [N; 3; 4 * ceil4 H; 4 * ceil4 W])
    by congruence.
  clear Hnet. unfold ceil4 in Hy.
  destruct (extracts_like_Vgg16_stages _ x N H W Hx HH HW Ex)
    as (a1 & a2 & a3 & a4 & Ea & _ & _ & Sa & _).
  destruct (extracts_like_Vgg16_stages (vgg (self w)) y_hat N _ _ Hy) as
    (g1 & g2 & g3 & g4 & Eg & _ & _ & Sg & _); try lia; try assumption.
  rewrite extract_value. unfold ComputeLosses.
  rewrite Ea, Eg. cbn [rbind unpack4].
  unfold L_feat, mse_loss. rewrite Sa, Sg.
  rewrite broadcast_4d_mismatch; [reflexivity | ].
  destruct Odd as [O | O]; [left | right]; apply bdim_None; lia.
Qed.

(** The mean squared error of a batch against one sample. *)
Lemma mse_loss_batch_broadcast (a b : tensor) (N c d : nat) :
  shape a = [N; c; d] -> shape b = [1; c; d] ->
  finite a -> finite b -> 1 <= N -> 1 <= c -> 1 <= d ->
  exists v, mse_loss a b = Ok (Some v) /\ (0 <= v)%Q.
Proof.
  intros Sa Sb Fa Fb HN Hc Hd.
  assert (B : broadcast_shapes [N; c; d] [1; c; d] = Some [N; c; d]).
  { unfold broadcast_shapes. simpl. rewrite !bdim_refl.
    unfold bdim. destruct (N =? 1) eqn:E; [ | reflexivity].
    apply Nat.eqb_eq in E. subst N. reflexivity. }
  unfold mse_loss. rewrite Sa, Sb, B.
  rewrite (mean_finite [N; c; d] _ (fun idx =>
     (val a idx - val b (bindex [1%nat; c; d] idx))
     * (val a idx - val b (bindex [1%nat; c; d] idx)))%Q).
  - eexists. split; [reflexivity | ].
    apply Qdiv_nonneg.
    + apply qsum_over_nonneg. intros idx _. apply Qsq_nonneg.
    + apply qn_pos, numel_pos. repeat constructor; lia.
  - intros idx Bd. cbn [get expand]. rewrite Sa, Sb.
    rewrite (bindex_in_bounds _ _ Bd).
    rewrite (finite_val a idx Fa) by (rewrite Sa; exact Bd).
    rewrite (finite_val b (bindex [1; c; d] idx) Fb).
    + reflexivity.
    + rewrite Sb. apply in_bounds3 in Bd.
      destruct Bd as (n & i & j & -> & Hn & Hi & Hj).
      unfold bindex. simpl.
      destruct (c =? 1); destruct (d =? 1); repeat split; lia.
  - apply numel_pos. repeat constructor; lia.
Qed.

Lemma L_style_batch_broadcast (f s : tensor) (N c h w h' w' : nat) :
  shape f = [N; c; h; w] -> shape s = [1; c; h'; w'] ->
  finite f -> finite s ->
  1 <= N -> 1 <= c -> 1 <= h -> 1 <= w -> 1 <= h' -> 1 <= w' ->
  exists v, L_style f s = Ok (Some v) /\ (0 <= v)%Q.
Proof.
  intros Sf Ss Ff Fs HN Hc Hh Hw Hh' Hw'.
  destruct (gram_matrix_finite f N c h w Sf Ff) as (Gf & HGf & SGf & FGf & _);
    [nia | ].
  destruct (gram_matrix_finite s 1 c h' w' Ss Fs)
    as (Gs & HGs & SGs & FGs & _); [nia | ].
  unfold L_style. rewrite HGf, HGs. cbn [rbind].
  apply (mse_loss_batch_broadcast Gf Gs N c c); assumption.
Qed.

Lemma smul_nonneg (k : Q) (v : Q) :
  (0 <= k)%Q -> (0 <= v)%Q ->
  exists r, smul (Some k) (Some v) = Some r /\ (0 <= r)%Q.
Proof.
  intros. eexists. split; [reflexivity | ]. apply Qmult_le_0_compat; auto.
Qed.

(** X17: with non-negative weights, a single style image of any size
    the extractor accepts, and content and generated batches of one
    shape, [extract_and_calculate_loss] returns three non-negative
    numbers. *)
Theorem losses_are_nonnegative_numbers
    (e : extractor) (style x y_hat : tensor) (lc ls ltv : Q)
    (log log' calls0 : list tensor) (s : Loss_plst)
    (N H W Hs Ws : nat) :
  init e style lc ls ltv log = (Ok s, log') ->
  shape style = [1; 3; Hs; Ws] -> 8 <= Hs -> 8 <= Ws ->
  shape x = [N; 3; H; W] -> shape y_hat = [N; 3; H; W] ->
  1 <= N -> 8 <= H -> 8 <= W ->
  finite y_hat ->
  extracts_like_Vgg16 e style -> extracts_like_Vgg16 e x ->
  extracts_like_Vgg16 e y_hat ->
  (0 <= lc)%Q -> (0 <= ls)%Q -> (0 <= ltv)%Q ->
  exists c st tv,
    fst (extract_and_calculate_loss x y_hat (mkWorld s calls0))
    = Ok (Some c, Some st, Some tv)
    /\ (0 <= c)%Q /\ (0 <= st)%Q /\ (0 <= tv)%Q.
Proof.
  intros I Ss HHs HWs Sx Sy HN HH HW Fy Es Ex Ey Plc Pls Pltv.
  destruct (extracts_like_Vgg16_stages e style 1 Hs Ws Ss HHs HWs Es)
    as (p1 & p2 & p3 & p4 & Ep & P1 & P2 & P3 & P4 & FP1 & FP2 & FP3 & FP4).
  destruct (extracts_like_Vgg16_stages e x N H W Sx HH HW Ex)
    as (a1 & a2 & a3 & a4 & Ea & _ & _ & A3 & _ & _ & _ & FA3 & _).
  destruct (extracts_like_Vgg16_stages e y_hat N H W Sy HH HW Ey)
    as (g1 & g2 & g3 & g4 & Eg & G1 & G2 & G3 & G4 & FG1 & FG2 & FG3 & FG4).
  rewrite init_run, Ep in I. injection I as <- _.
  destruct (mse_loss_same_shape g3 a3) as (vc & Hvc & Pvc & _);
    try assumption; try congruence.
  { rewrite G3. apply numel_pos. repeat constructor; lia. }
  destruct (L_style_batch_broadcast g1 p1 _ _ _ _ _ _ G1 P1)
    as (v1 & L1 & Pv1); try assumption; try lia.
  destruct (L_style_batch_broadcast g2 p2 _ _ _ _ _ _ G2 P2)
    as (v2 & L2 & Pv2); try assumption; try lia.
  destruct (L_style_batch_broadcast g3 p3 _ _ _ _ _ _ G3 P3)
    as (v3 & L3 & Pv3); try assumption; try lia.
  destruct (L_style_batch_broadcast g4 p4 _ _ _ _ _ _ G4 P4)
    as (v4 & L4 & Pv4); try assumption; try lia.
  destruct (L_tv_nonneg_core y_hat N 3 H W Sy Fy) as (vt & Lt & Pvt);
    try lia.
  rewrite extract_value. cbn [self].
  rewrite (ComputeLosses_intro _ x y_hat a1 a2 a3 a4 g1 g2 g3 g4
             (Some vc) (Some v1) (Some v2) (Some v3) (Some v4) (Some vt));
    try assumption.
  cbn [lambda_c lambda_s lambda_tv smul sadd lift2].
  do 3 eexists. split; [reflexivity | ].
  repeat split; apply Qmult_le_0_compat; try assumption.
  lra.
Qed.

End Pipeline.

Section SessionMore.

Lemma mse_loss_same_shape_returns (a b : tensor) :
  shape a = shape b -> exists v, mse_loss a b = Ok v.
Proof.
  intros E. unfold mse_loss. rewrite E, broadcast_shapes_refl.
  eexists. reflexivity.
Qed.

(** X18: a style batch whose size is neither 1 nor the size of the
    content batch (itself not 1) makes every call raise: the Gram
    matrices cannot be broadcast along the batch. *)
Theorem style_batch_mismatch_raises
    (e : extractor) (style x y_hat : tensor) (lc ls ltv : Q)
    (log log' calls0 : list tensor) (s : Loss_plst)
    (Ns N H W Hs Ws : nat) :
  init e style lc ls ltv log = (Ok s, log') ->
  shape style = [Ns; 3; Hs; Ws] -> 8 <= Hs -> 8 <= Ws ->
  shape x = [N; 3; H; W] -> shape y_hat = [N; 3; H; W] ->
  8 <= H -> 8 <= W ->
  extracts_like_Vgg16 e style -> extracts_like_Vgg16 e x ->
  extracts_like_Vgg16 e y_hat ->
  Ns <> N -> Ns <> 1 -> N <> 1 ->
  fst (extract_and_calculate_loss x y_hat (mkWorld s calls0)) = Raise.
Proof.
  intros I Ss HHs HWs Sx Sy HH HW Es Ex Ey D1 D2 D3.
  destruct (extracts_like_Vgg16_stages e style Ns Hs Ws Ss HHs HWs Es)
    as (p1 & p2 & p3 & p4 & Ep & P1 & _).
  destruct (extracts_like_Vgg16_stages e x N H W Sx HH HW Ex)
    as (a1 & a2 & a3 & a4 & Ea & _ & _ & A3 & _).
  destruct (extracts_like_Vgg16_stages e y_hat N H W Sy HH HW Ey)
    as (g1 & g2 & g3 & g4 & Eg & G1 & _ & G3 & _).
  rewrite init_run, Ep in I. injection I as <- _.
  rewrite extract_value. unfold ComputeLosses. cbn [self vgg].
  rewrite Ea, Eg. cbn [rbind unpack4].
  destruct (mse_loss_same_shape_returns g3 a3) as (vc & Hvc);
    [congruence | ].
  unfold L_feat. rewrite Hvc. cbn [rbind style_relu1_2].
  destruct (gram_matrix_entries g1 _ _ _ _ G1) as (Gg & HGg & SGg & _).
  destruct (gram_matrix_entries p1 _ _ _ _ P1) as (Gp & HGp & SGp & _).
  unfold L_style at 1. rewrite HGg, HGp. cbn [rbind].
  unfold mse_loss at 1. rewrite SGg, SGp.
  rewrite broadcast_3d_batch_mismatch; [reflexivity | ].
  apply bdim_None; congruence.
Qed.

(** X19: the constructor raises exactly when the extractor does not
    return four feature maps on the style image (it raises, or the
    unpacking fails); in every case the extractor has been run once, on
    the style image. *)
Theorem init_raises_iff (e : extractor) (style : tensor) (lc ls ltv : Q)
    (log : list tensor) :
  (fst (init e style lc ls ltv log) = Raise
   <-> forall a b c d, e style <> Ok [a; b; c; d])
  /\ snd (init e style lc ls ltv log) = log ++ [style].
Proof.
  rewrite init_run. cbn [fst snd].
  split; [ | reflexivity].
  split.
  - intros R a b c d E. rewrite E in R. discriminate.
  - intros K.
    destruct (e style) as [[| a [| b [| c [| d [| ? ?]]]]] |];
      try reflexivity.
    exfalso. exact (K a b c d eq_refl).
Qed.

(** X20: multiplying the three weights of a session by [k1], [k2],
    [k3] multiplies the three returned losses by [k1], [k2], [k3]
    respectively and changes nothing else. *)
Theorem weights_scale_losses (s : Loss_plst) (k1 k2 k3 : Q)
    (x y_hat : tensor) (calls1 calls2 : list tensor)
    (c st tv : scalar) :
  fst (extract_and_calculate_loss x y_hat (mkWorld s calls1))
    = Ok (c, st, tv) ->
  exists c' st' tv',
    fst (extract_and_calculate_loss x y_hat
           (mkWorld (mkLoss_plst (vgg s) (style_img s)
                       (k1 * lambda_c s) (k2 * lambda_s s)
                       (k3 * lambda_tv s)
                       (style_relu1_2 s) (style_relu2_2 s)
                       (style_relu3_3 s) (style_relu4_3 s)) calls2))
    = Ok (c', st', tv')
    /\ seqv c' (smul (Some k1) c)
    /\ seqv st' (smul (Some k2) st)
    /\ seqv tv' (smul (Some k3) tv).
Proof.
  rewrite !extract_value. cbn [self]. intros R.
  destruct (ComputeLosses_inv _ _ _ _ R)
    as (a1 & a2 & a3 & a4 & g1 & g2 & g3 & g4 & lc & l1 & l2 & l3 & l4
        & ltv & Hx & Hy & Hc & H1 & H2 & H3 & H4 & Htv & E).
  injection E as -> -> ->.
  rewrite (ComputeLosses_intro _ x y_hat a1 a2 a3 a4 g1 g2 g3 g4
             lc l1 l2 l3 l4 ltv) by assumption.
  cbn [lambda_c lambda_s lambda_tv].
  do 3 eexists. split; [reflexivity | ].
  repeat split.
  - destruct lc; simpl; [ring | exact I].
  - destruct (sadd (sadd (sadd l1 l2) l3) l4); simpl; [ring | exact I].
  - destruct ltv; simpl; [ring | exact I].
Qed.

(** X21: a call runs the extractor on [x], and on [y_hat] only if the
    first run returned four feature maps; whatever happens afterwards,
    these are its only runs. *)
Theorem extractor_runs_of_a_call (x y_hat : tensor) (w : world) :
  calls (snd (extract_and_calculate_loss x y_hat w))
  = calls w ++ match vgg (self w) x with
               | Ok [_; _; _; _] => [x; y_hat]
               | _ => [x]
               end.
Proof.
  run_call w x y_hat; cbn [self calls]; rewrite <- ?app_assoc; reflexivity.
Qed.

End SessionMore.

(** ** The properties above at sample inputs *)

Section Witnesses.

Local Open Scope Q_scope.

Lemma mse_loss_nonneg_zero_iff_witness :
  exists v, L_feat (Sample.ramp [2; 3; 2; 2]%nat)
                   (Sample.fill [2; 3; 2; 2]%nat 1) = Ok (Some v)
    /\ 0 <= v
    /\ (v == 0 <->
        forall idx, in_bounds [2; 3; 2; 2]%nat idx ->
          val (Sample.ramp [2; 3; 2; 2]%nat) idx
          == val (Sample.fill [2; 3; 2; 2]%nat 1) idx).
Proof.
  apply (mse_loss_nonneg_zero_iff (Sample.ramp [2; 3; 2; 2]%nat)
           (Sample.fill [2; 3; 2; 2]%nat 1)).
  - reflexivity.
  - intros idx _. discriminate.
  - intros idx _. discriminate.
  - simpl. lia.
Defined.

Lemma gram_matrix_empty_spatial_witness :
  (exists G, gram_matrix (Sample.fill [1; 2; 0; 3]%nat 0) = Ok G
             /\ forall idx, get G idx = None)
  /\ (forall y q,
        L_style (Sample.fill [1; 2; 0; 3]%nat 0) y <> Ok (Some q)
        /\ L_style y (Sample.fill [1; 2; 0; 3]%nat 0) <> Ok (Some q)).
Proof.
  apply (gram_matrix_empty_spatial (Sample.fill [1; 2; 0; 3]%nat 0) 1 2 0 3).
  - reflexivity.
  - reflexivity.
Defined.

Lemma gram_matrix_positive_semidefinite_witness :
  exists G, gram_matrix (Sample.ramp [1; 2; 2; 2]%nat) = Ok G
    /\ forall n, (n < 1)%nat ->
         (forall i, (i < 2)%nat -> 0 <= val G [n; i; i])
         /\ (forall v : nat -> Q,
               0 <= qsum 2 (fun i => qsum 2 (fun j =>
                      v i * v j * val G [n; i; j]))).
Proof.
  apply (gram_matrix_positive_semidefinite
           (Sample.ramp [1; 2; 2; 2]%nat) 1 2 2 2).
  - reflexivity.
  - intros idx _. discriminate.
  - simpl. lia.
Defined.

Lemma gram_matrix_ignores_transposition_witness :
  exists Gx Gy,
    gram_matrix (Sample.ramp [1; 2; 2; 3]%nat) = Ok Gx
    /\ gram_matrix (Probe.transposed (Sample.ramp [1; 2; 2; 3]%nat)) = Ok Gy
    /\ (forall n i j, (n < 1)%nat -> (i < 2)%nat -> (j < 2)%nat ->
          val Gx [n; i; j] == val Gy [n; i; j])
    /\ exists l, L_style (Sample.ramp [1; 2; 2; 3]%nat)
                   (Probe.transposed (Sample.ramp [1; 2; 2; 3]%nat))
                 = Ok (Some l) /\ l == 0.
Proof.
  apply (gram_matrix_ignores_transposition
           (Sample.ramp [1; 2; 2; 3]%nat)
           (Probe.transposed (Sample.ramp [1; 2; 2; 3]%nat)) 1 2 2 3).
  - reflexivity.
  - reflexivity.
  - intros idx _. discriminate.
  - intros idx _. discriminate.
  - lia.
  - lia.
  - lia.
  - lia.
  - intros n i p q _ _ _ _. reflexivity.
Defined.

Lemma L_tv_affine_witness :
  exists u v, L_tv (Sample.ramp [1; 2; 3; 3]%nat) = Ok (Some u)
              /\ L_tv (Probe.affine_ramp [1; 2; 3; 3]%nat (-2) 5)
                 = Ok (Some v)
              /\ v == Qabs (-2) * u.
Proof.
  apply (L_tv_affine (Sample.ramp [1; 2; 3; 3]%nat)
           (Probe.affine_ramp [1; 2; 3; 3]%nat (-2) 5) 1 2 3 3 (-2) 5).
  - reflexivity.
  - reflexivity.
  - intros idx _. discriminate.
  - intros idx _. discriminate.
  - lia.
  - lia.
  - lia.
  - lia.
  - intros idx _. reflexivity.
Defined.

Lemma L_tv_is_a_number_iff_witness :
  (exists v, L_tv (Sample.ramp [1; 2; 3; 3]%nat) = Ok (Some v))
  <-> (1 <= 1 /\ 1 <= 2 /\ 2 <= 3 /\ 2 <= 3)%nat.
Proof.
  apply (L_tv_is_a_number_iff (Sample.ramp [1; 2; 3; 3]%nat) 1 2 3 3).
  - reflexivity.
  - intros idx _. discriminate.
Defined.

End Witnesses.

Section Witnesses2.

Lemma StyleTransferNet_output_is_a_fixed_point_witness :
  exists H' W',
    [1; 3; 8; 12] = [1; 3; H'; W']
    /\ H' mod 4 = 0 /\ W' mod 4 = 0
    /\ 5 <= H' < 5 + 4 /\ 9 <= W' < 9 + 4
    /\ StyleTransferNet_shape [1; 3; 8; 12] = Ok [1; 3; 8; 12].
Proof.
  apply (StyleTransferNet_output_is_a_fixed_point 1 5 9 [1; 3; 8; 12]).
  vm_compute. reflexivity.
Defined.

Lemma training_step_raises_unless_multiples_of_4_witness :
  fst (extract_and_calculate_loss
         (Sample.ramp [2; 3; 9; 12]) (Sample.ramp [2; 3; 12; 12])
         (mkWorld (Probe.session (Sample.ramp [1; 3; 8; 8]) 1 1 1) []))
  = Raise.
Proof.
  apply (training_step_raises_unless_multiples_of_4
           (mkWorld (Probe.session (Sample.ramp [1; 3; 8; 8]) 1 1 1) [])
           (Sample.ramp [2; 3; 9; 12]) (Sample.ramp [2; 3; 12; 12])
           2 9 12).
  - reflexivity.
  - lia.
  - lia.
  - vm_compute. reflexivity.
  - exact (shaped_vgg_like_Vgg16 (Sample.ramp [2; 3; 9; 12]) _
             (Vgg16_shapes_eq 2 9 12)).
  - exact (shaped_vgg_like_Vgg16 (Sample.ramp [2; 3; 12; 12]) _
             (Vgg16_shapes_eq 2 12 12)).
  - left. vm_compute. discriminate.
Defined.

Lemma losses_are_nonnegative_numbers_witness :
  exists c st tv,
    fst (extract_and_calculate_loss
           (Sample.ramp [2; 3; 8; 12]) (Sample.fill [2; 3; 8; 12] 1)
           (mkWorld (Probe.session (Sample.ramp [1; 3; 16; 8]) 1 2 3) []))
    = Ok (Some c, Some st, Some tv)
    /\ (0 <= c)%Q /\ (0 <= st)%Q /\ (0 <= tv)%Q.
Proof.
  apply (losses_are_nonnegative_numbers Sample.shaped_vgg
           (Sample.ramp [1; 3; 16; 8])
           (Sample.ramp [2; 3; 8; 12]) (Sample.fill [2; 3; 8; 12] 1)
           1 2 3 [] [Sample.ramp [1; 3; 16; 8]] []
           (Probe.session (Sample.ramp [1; 3; 16; 8]) 1 2 3)
           2 8 12 16 8).
  - reflexivity.
  - reflexivity.
  - lia.
  - lia.
  - reflexivity.
  - reflexivity.
  - lia.
  - lia.
  - lia.
  - intros idx _. discriminate.
  - exact (shaped_vgg_like_Vgg16 (Sample.ramp [1; 3; 16; 8]) _
             (Vgg16_shapes_eq 1 16 8)).
  - exact (shaped_vgg_like_Vgg16 (Sample.ramp [2; 3; 8; 12]) _
             (Vgg16_shapes_eq 2 8 12)).
  - exact (shaped_vgg_like_Vgg16 (Sample.fill [2; 3; 8; 12] 1) _
             (Vgg16_shapes_eq 2 8 12)).
  - lra.
  - lra.
  - lra.
Defined.

Lemma style_batch_mismatch_raises_witness :
  fst (extract_and_calculate_loss
         (Sample.ramp [2; 3; 8; 8]) (Sample.fill [2; 3; 8; 8] 1)
         (mkWorld (Probe.session (Sample.ramp [3; 3; 8; 8]) 1 1 1) []))
  = Raise.
Proof.
  apply (style_batch_mismatch_raises Sample.shaped_vgg
           (Sample.ramp [3; 3; 8; 8])
           (Sample.ramp [2; 3; 8; 8]) (Sample.fill [2; 3; 8; 8] 1)
           1 1 1 [] [Sample.ramp [3; 3; 8; 8]] []
           (Probe.session (Sample.ramp [3; 3; 8; 8]) 1 1 1)
           3 2 8 8 8 8).
  - reflexivity.
  - reflexivity.
  - lia.
  - lia.
  - reflexivity.
  - reflexivity.
  - lia.
  - lia.
  - exact (shaped_vgg_like_Vgg16 (Sample.ramp [3; 3; 8; 8]) _
             (Vgg16_shapes_eq 3 8 8)).
  - exact (shaped_vgg_like_Vgg16 (Sample.ramp [2; 3; 8; 8]) _
             (Vgg16_shapes_eq 2 8 8)).
  - exact (shaped_vgg_like_Vgg16 (Sample.fill [2; 3; 8; 8] 1) _
             (Vgg16_shapes_eq 2 8 8)).
  - lia.
  - lia.
  - lia.
Defined.

Lemma weights_scale_losses_witness :
  exists c st tv c' st' tv',
    fst (extract_and_calculate_loss Sample.img Sample.img'
           (mkWorld (mkLoss_plst Sample.toy_vgg Sample.flat 1 2 3
                       Sample.flat (tabs Sample.flat)
                       (tdivn Sample.flat 2) Sample.flat) []))
    = Ok (c, st, tv)
    /\ fst (extract_and_calculate_loss Sample.img Sample.img'
           (mkWorld (mkLoss_plst Sample.toy_vgg Sample.flat
                       (2 * 1) (0 * 2) (5 * 3)
                       Sample.flat (tabs Sample.flat)
                       (tdivn Sample.flat 2) Sample.flat) []))
    = Ok (c', st', tv')
    /\ seqv c' (smul (Some 2%Q) c)
    /\ seqv st' (smul (Some 0%Q) st)
    /\ seqv tv' (smul (Some 5%Q) tv).
Proof.
  do 3 eexists.
  assert (R : fst (extract_and_calculate_loss Sample.img Sample.img'
           (mkWorld (mkLoss_plst Sample.toy_vgg Sample.flat 1 2 3
                       Sample.flat (tabs Sample.flat)
                       (tdivn Sample.flat 2) Sample.flat) []))
    = Ok (_, _, _)) by reflexivity.
  destruct (weights_scale_losses _ 2 0 5 _ _ [] [] _ _ _ R)
    as (c' & st' & tv' & E & P).
  exists c', st', tv'. split; [exact R | ]. split; [exact E | exact P].
Defined.

End Witnesses2.
